(** * gocache: a shallow embedding of the cache library and its properties

    The Go packages [lru], [singleflight], [consistenthash] and [gocache]
    are embedded as Rocq modules of the same names.  Pointers become
    addresses, Go maps become [gmap]s, [int64] arithmetic wraps, and a call
    that can panic, spin or block returns a [result]. *)

From Stdlib Require Import ZArith String List Lia.
From Stdlib.Strings Require Import Byte.
From Stdlib Require Import DecimalString.
From stdpp Require Import base option list gmap strings sorting.

Local Open Scope Z_scope.

(** ** Go runtime conventions *)

(** Outcome of a Go call: it returns, it panics, its loop is still running
    when the step bound is used up, or it waits on a synchronisation point
    nobody will release. *)
Inductive result (A : Type) : Type :=
| Ret (a : A)
| Panic (msg : string)
| OutOfFuel
| Blocked.

Arguments Ret {A} a.
Arguments Panic {A} msg.
Arguments OutOfFuel {A}.
Arguments Blocked {A}.

#[global] Instance result_ret : MRet result := @Ret.

#[global] Instance result_bind : MBind result := λ A B f m,
  match m with
  | Ret a => f a
  | Panic msg => Panic msg
  | OutOfFuel => OutOfFuel
  | Blocked => Blocked
  end.

(** A Go [error] value; the nil error is [None] of [option error]. *)
Inductive error : Type :=
| Errorf (msg : string).

(** [[]byte] *)
Definition bytes : Type := list byte.

(** [len(s)] of a Go string: its number of bytes. *)
Definition len (s : string) : Z := Z.of_nat (String.length s).

(** [int64(x)]: two's complement wrap-around to 64 bits. *)
Definition int64 (z : Z) : Z := (z + 2 ^ 63) `mod` 2 ^ 64 - 2 ^ 63.

(** [uint32(x)] *)
Definition uint32 (z : Z) : Z := z `mod` 2 ^ 32.

(** ** Package lru *)

Module lru.

(** [type Lengthable interface { Len() int }] *)
Class Lengthable (V : Type) := Len : V → Z.

(** [type OnEliminated func(key string, Value Lengthable)]: a closure, the
    variables it captured together with its code. *)
Record OnEliminated (V : Type) : Type := {
  env_t : Type;
  env : env_t;
  call : string → V → env_t → env_t;
}.

Arguments env_t {V} _.
Arguments env {V} _.
Arguments call {V} _ _ _ _.

(** [type Value struct { key string; value Lengthable }] *)
Record Value (V : Type) : Type := {
  key : string;
  value : V;
}.

Arguments key {V} _.
Arguments value {V} _.

(** A [*list.Element] of container/list: the address of the element and
    the [*Value] it carries. *)
Record Element (V : Type) : Type := {
  ptr : nat;
  elem_Value : Value V;
}.

Arguments ptr {V} _.
Arguments elem_Value {V} _.

(** [type Cache struct]; [doublyLinkedList] is kept front first, [hashmap]
    holds element addresses, [alloc] is the next address [PushFront] hands
    out. *)
Record Cache (V : Type) : Type := {
  capacity : Z;
  length : Z;
  doublyLinkedList : list (Element V);
  hashmap : gmap string nat;
  callback : option (OnEliminated V);
  alloc : nat;
}.

Arguments capacity {V} _.
Arguments length {V} _.
Arguments doublyLinkedList {V} _.
Arguments hashmap {V} _.
Arguments callback {V} _.
Arguments alloc {V} _.

Section lru.
Context {V : Type} `{!Lengthable V}.

(** [func New(maxBytes int64, callback OnEliminated) *Cache] *)
Definition New (maxBytes : Z) (cb : option (OnEliminated V)) : Cache V :=
  {| capacity := maxBytes;
     length := 0;
     doublyLinkedList := [];
     hashmap := ∅;
     callback := cb;
     alloc := 0%nat |}.

(** container/list: the element at address [e], when it is in the list. *)
Definition elem_at (e : nat) (l : list (Element V)) : option (Element V) :=
  List.find (λ x, Nat.eqb (ptr x) e) l.

(** container/list [Remove]: unlink the element at address [e]. *)
Definition list_Remove (e : nat) (l : list (Element V)) : list (Element V) :=
  List.filter (λ x, negb (Nat.eqb (ptr x) e)) l.

(** container/list [MoveToFront]: nothing happens when [e] is not an
    element of the list. *)
Definition MoveToFront (e : nat) (l : list (Element V)) : list (Element V) :=
  match elem_at e l with
  | Some x => x :: list_Remove e l
  | None => l
  end.

(** container/list [Back]: the last element, or nil. *)
Definition Back (l : list (Element V)) : option (Element V) := last l.

(** Assignment through the [*Value] held by the element at [e]. *)
Definition set_value (e : nat) (v : V) (l : list (Element V)) : list (Element V) :=
  List.map (λ x, if Nat.eqb (ptr x) e
                 then {| ptr := ptr x;
                         elem_Value := {| key := key (elem_Value x); value := v |} |}
                 else x) l.

(** Running the callback closure once. *)
Definition invoke (k : string) (v : V) (cb : OnEliminated V) : OnEliminated V :=
  {| env_t := env_t cb; env := call cb k v (env cb); call := call cb |}.

(** [int64(len(key)) + int64(value.Len())] before it wraps. *)
Definition len_entry (k : string) (v : V) : Z := len k + Len v.

(** [func (c *Cache) Remove()] *)
Definition Remove (c : Cache V) : Cache V :=
  match Back (doublyLinkedList c) with
  | Some tailElem =>
      let entry := elem_Value tailElem in
      let k := key entry in
      let v := value entry in
      {| capacity := capacity c;
         length := int64 (length c - int64 (len_entry k v));
         doublyLinkedList := list_Remove (ptr tailElem) (doublyLinkedList c);
         hashmap := delete k (hashmap c);
         callback := invoke k v <$> callback c;
         alloc := alloc c |}
  | None => c
  end.

(** [func (c *Cache) Get(key string) (value Lengthable, ok bool)].  A
    pointer found in [hashmap] is an element of the list in every state the
    package can reach; the model panics on any other. *)
Definition Get (k : string) (c : Cache V) : result ((option V * bool) * Cache V) :=
  match hashmap c !! k with
  | Some elem =>
      match elem_at elem (doublyLinkedList c) with
      | Some x =>
          let entry := elem_Value x in
          Ret ((Some (value entry), true),
               {| capacity := capacity c;
                  length := length c;
                  doublyLinkedList := MoveToFront elem (doublyLinkedList c);
                  hashmap := hashmap c;
                  callback := callback c;
                  alloc := alloc c |})
      | None => Panic "invalid memory address or nil pointer dereference"
      end
  | None => Ret ((None, false), c)
  end.

(** The guard of the eviction loop of [Add]:
    [c.capacity != 0 && kvSize+c.length > c.capacity]. *)
Definition over (kvSize : Z) (c : Cache V) : bool :=
  negb (capacity c =? 0) && (capacity c <? int64 (kvSize + length c)).

(** [for c.capacity != 0 && kvSize+c.length > c.capacity { c.Remove() }],
    cut off after [fuel] iterations. *)
Fixpoint evict (fuel : nat) (kvSize : Z) (c : Cache V) : result (Cache V) :=
  if over kvSize c then
    match fuel with
    | O => OutOfFuel
    | S fuel' => evict fuel' kvSize (Remove c)
    end
  else Ret c.

(** [func (c *Cache) Add(key string, value Lengthable)] *)
Definition Add (fuel : nat) (k : string) (v : V) (c : Cache V) : result (Cache V) :=
  let kvSize := int64 (len_entry k v) in
  c ← evict fuel kvSize c;
  match hashmap c !! k with
  | Some elem =>
      match elem_at elem (doublyLinkedList c) with
      | Some x =>
          let oldEntry := elem_Value x in
          Ret {| capacity := capacity c;
                 length := int64 (length c + int64 (Len (value oldEntry) - Len v));
                 doublyLinkedList :=
                   set_value elem v (MoveToFront elem (doublyLinkedList c));
                 hashmap := hashmap c;
                 callback := callback c;
                 alloc := alloc c |}
      | None => Panic "invalid memory address or nil pointer dereference"
      end
  | None =>
      let elem := {| ptr := alloc c; elem_Value := {| key := k; value := v |} |} in
      Ret {| capacity := capacity c;
             length := int64 (length c + kvSize);
             doublyLinkedList := elem :: doublyLinkedList c;
             hashmap := <[k := ptr elem]> (hashmap c);
             callback := callback c;
             alloc := S (alloc c) |}
  end.

(** Size of one entry: key length in bytes plus the value's length. *)
Definition entry_size (x : Element V) : Z :=
  len_entry (key (elem_Value x)) (value (elem_Value x)).

(** Sum of the sizes of the entries the cache holds. *)
Definition total_size (c : Cache V) : Z :=
  foldr (λ x acc, entry_size x + acc) 0 (doublyLinkedList c).

(** The keys in the cache, most recently used first. *)
Definition keys (c : Cache V) : list string :=
  (λ x, key (elem_Value x)) <$> doublyLinkedList c.

End lru.

(** One step of a script of calls on a cache. *)
Inductive op (V : Type) : Type :=
| OpAdd (k : string) (v : V)
| OpGet (k : string).

Arguments OpAdd {V} k v.
Arguments OpGet {V} k.

(** Run a script of [Add] and [Get] calls from left to right. *)
Fixpoint run {V : Type} `{!Lengthable V} (fuel : nat) (ops : list (op V)) (c : Cache V)
  : result (Cache V) :=
  match ops with
  | [] => Ret c
  | OpAdd k v :: rest => c ← Add fuel k v c; run fuel rest c
  | OpGet k :: rest => '(_, c) ← Get k c; run fuel rest c
  end.

End lru.

(** ** Go standard library functions the packages call *)

Module crc32.

(** The reflected IEEE polynomial. *)
Definition IEEE : Z := 0xedb88320.

(** One bit of the bitwise algorithm. *)
Definition shift1 (crc : Z) : Z :=
  if Z.testbit crc 0 then Z.lxor (Z.shiftr crc 1) IEEE else Z.shiftr crc 1.

Definition update (crc : Z) (b : byte) : Z :=
  Nat.iter 8 shift1 (Z.lxor crc (Z.of_N (Byte.to_N b))).

(** [crc32.ChecksumIEEE(data)] *)
Definition ChecksumIEEE (data : bytes) : Z :=
  Z.lxor (fold_left update data 0xffffffff) 0xffffffff.

End crc32.

Module strconv.

(** [strconv.Itoa(i)]: the decimal rendering of [i]. *)
Definition Itoa (i : Z) : string := NilZero.string_of_int (Z.to_int i).

End strconv.

Module sort.

(** [sort.Ints(a)]: [a] in increasing order. *)
Definition Ints (a : list Z) : list Z := merge_sort Z.le a.

(** The loop of [sort.Search]:
    [for i < j { h := int(uint(i+j) >> 1); if !f(h) { i = h + 1 } else { j = h } }].
    Every iteration shrinks [j - i], so [j - i] iterations are enough. *)
Fixpoint search_loop (fuel : nat) (f : Z → bool) (i j : Z) : Z :=
  if i <? j then
    match fuel with
    | O => i
    | S fuel' =>
        let h := Z.shiftr (i + j) 1 in
        if negb (f h) then search_loop fuel' f (h + 1) j
        else search_loop fuel' f i h
    end
  else i.

(** [sort.Search(n, f)] *)
Definition Search (n : Z) (f : Z → bool) : Z := search_loop (Z.to_nat n) f 0 n.

End sort.

(** ** Package consistenthash *)

Module consistenthash.

(** [type HashFunc func(data []byte) uint32] *)
Definition HashFunc : Type := bytes → Z.

(** [type Consistentency struct] *)
Record Consistentency : Type := {
  hash : HashFunc;
  replicas : Z;
  ring : list Z;
  hashMap : gmap Z string;
}.

(** [func New(replicas int, fn HashFunc) *Consistentency]; a nil [fn] selects
    [crc32.ChecksumIEEE]. *)
Definition New (replicas : Z) (fn : option HashFunc) : Consistentency :=
  {| hash := match fn with Some f => f | None => crc32.ChecksumIEEE end;
     replicas := replicas;
     ring := [];
     hashMap := ∅ |}.

(** [int(c.hash([]byte(s)))]: the hash is a [uint32], widened to [int]. *)
Definition hashOf (c : Consistentency) (s : string) : Z :=
  uint32 (hash c (list_byte_of_string s)).

(** The body of the inner loop of [Register]. *)
Definition add_virtual (peerName : string) (c : Consistentency) (i : Z) : Consistentency :=
  let hashValue := hashOf c (strconv.Itoa i +:+ peerName) in
  {| hash := hash c;
     replicas := replicas c;
     ring := ring c ++ [hashValue];
     hashMap := <[hashValue := peerName]> (hashMap c) |}.

(** [for i := 0; i < c.replicas; i++ { ... }] *)
Definition add_peer (c : Consistentency) (peerName : string) : Consistentency :=
  foldl (add_virtual peerName) c (seqZ 0 (replicas c)).

(** [func (c *Consistentency) Register(peersName ...string)] *)
Definition Register (peersName : list string) (c : Consistentency) : Consistentency :=
  let c := foldl add_peer c peersName in
  {| hash := hash c;
     replicas := replicas c;
     ring := sort.Ints (ring c);
     hashMap := hashMap c |}.

(** [c.ring[i] >= hashValue], the predicate handed to [sort.Search]; the
    search only probes indices below [len(c.ring)]. *)
Definition ge_at (c : Consistentency) (hashValue : Z) (i : Z) : bool :=
  match ring c !! Z.to_nat i with
  | Some x => hashValue <=? x
  | None => false
  end.

(** [c.hashMap[h]]; a key that is absent reads as the empty string. *)
Definition owner (c : Consistentency) (h : Z) : string :=
  default ""%string (hashMap c !! h).

(** [func (c *Consistentency) Get(key string) string] *)
Definition Get (key : string) (c : Consistentency) : result string :=
  let n := Z.of_nat (List.length (ring c)) in
  if n =? 0 then Ret ""%string
  else
    let hashValue := hashOf c key in
    let idx := sort.Search n (ge_at c hashValue) in
    match ring c !! Z.to_nat (idx `mod` n) with
    | Some h => Ret (owner c h)
    | None => Panic "index out of range"
    end.

(** Modelled from the spec: [GetPeer], the method server.go calls on the ring
    and which is not among the sources.  It is the spec's [Locate], the
    lookup that package consistenthash itself names [Get]. *)
Definition GetPeer (key : string) (c : Consistentency) : result string := Get key c.

(** The rings a program can hold: made by [New], grown by [Register]. *)
Inductive built : Consistentency → Prop :=
| built_New replicas fn : built (New replicas fn)
| built_Register peersName c : built c → built (Register peersName c).

End consistenthash.

(** ** Package singleflight *)

Module singleflight.

(** [type packet struct { wg sync.WaitGroup; val interface{}; err error }];
    [wg] is the counter of the wait group, [T] the dynamic type of the values
    carried in [interface{}] ([None] is the nil interface). *)
Record packet (T : Type) : Type := {
  wg : nat;
  val : option T;
  err : option error;
}.

Arguments wg {T} _.
Arguments val {T} _.
Arguments err {T} _.

(** [type Flight struct { mu sync.Mutex; flight map[string]*packet }]; the
    map is nil until the first call. *)
Record Flight (T : Type) : Type := {
  flight : option (gmap string (packet T));
}.

Arguments flight {T} _.

(** Reading a Go map that may be nil. *)
Definition table {T : Type} (f : Flight T) : gmap string (packet T) :=
  default ∅ (flight f).

(** A program state [St] that holds the [Flight] a call works on. *)
Class HasFlight (T St : Type) : Type := {
  get_flight : St → Flight T;
  set_flight : Flight T → St → St;
}.

Section singleflight.
Context {T St : Type} `{!HasFlight T St}.

(** Assignment to the packet that [f.flight[key]] points to. *)
Definition store (key : string) (p : packet T) (s : St) : St :=
  set_flight {| flight := Some (<[key := p]> (table (get_flight s))) |} s.

(** [func (f *Flight) Fly(key string, fn func() (interface{}, error)) (interface{}, error)]
    as one thread of control runs it: [p.wg.Wait()] returns when the counter
    is zero and never otherwise. *)
Definition Fly (key : string) (fn : St → result ((option T * option error) * St)) (s : St)
  : result ((option T * option error) * St) :=
  let s := set_flight {| flight := Some (table (get_flight s)) |} s in
  match table (get_flight s) !! key with
  | Some p =>
      match wg p with
      | O => Ret ((val p, err p), s)
      | S _ => Blocked
      end
  | None =>
      let p := {| wg := 1; val := None; err := None |} in
      let s := store key p s in
      '(r, s) ← fn s;
      let p := {| wg := wg p; val := r.1; err := r.2 |} in
      let p := {| wg := pred (wg p); val := val p; err := err p |} in
      let s := store key p s in
      let s := set_flight {| flight := Some (delete key (table (get_flight s))) |} s in
      Ret ((val p, err p), s)
  end.

End singleflight.

(** A state made of the flight and the rest of the world. *)
#[global] Instance pair_HasFlight {T W : Type} : HasFlight T (Flight T * W) := {|
  get_flight := fst;
  set_flight := λ f s, (f, s.2);
|}.

(** A function value that counts its own invocations. *)
Definition counted {T W : Type} (fn : W → (option T * option error) * W)
  (s : Flight T * (nat * W)) : result ((option T * option error) * (Flight T * (nat * W))) :=
  let '(r, w) := fn s.2.2 in
  Ret (r, (s.1, (S s.2.1, w))).

End singleflight.

(** ** Package gocache *)

Module gocache.

(** *** byteview.go *)

(** [type ByteView struct { b []byte }] *)
Record ByteView : Type := {
  b : bytes;
}.

(** [func (v ByteView) Len() int] *)
#[global] Instance ByteView_Len : lru.Lengthable ByteView :=
  λ v, Z.of_nat (List.length (b v)).

(** [make([]byte, n)] *)
Definition make (n : nat) : bytes := replicate n x00.

(** [copy(dst, src)]: the contents of [dst] afterwards. *)
Definition copy (dst src : bytes) : bytes :=
  take (List.length dst) src ++ drop (List.length src) dst.

(** [func cloneBytes(b []byte) []byte] *)
Definition cloneBytes (x : bytes) : bytes := copy (make (List.length x)) x.

(** [ByteView{}] *)
Definition ByteView_zero : ByteView := {| b := [] |}.

(** *** The cache a group owns *)

(** Modelled from the spec: the type [cache] of a group, whose file is not
    among the sources.  The spec has the group own one BoundedLRU instance of
    the configured capacity, look keys up in it and insert loaded values into
    it; no eviction callback is mentioned. *)
Record cache : Type := {
  lru_ : lru.Cache ByteView;
}.

(** Modelled from the spec: [newCache], the constructor of [cache] that
    [NewGroup] calls; a BoundedLRU of capacity [maxBytes]. *)
Definition newCache (maxBytes : Z) : cache :=
  {| lru_ := lru.New maxBytes None |}.

(** Modelled from the spec: [cache.get], the BoundedLRU lookup of the group;
    a miss yields the zero [ByteView]. *)
Definition get (key : string) (c : cache) : result ((ByteView * bool) * cache) :=
  '((v, ok), l) ← lru.Get key (lru_ c);
  Ret ((default ByteView_zero v, ok), {| lru_ := l |}).

(** Modelled from the spec: [cache.add], the insertion of a value into the
    BoundedLRU of the group. *)
Definition add (fuel : nat) (key : string) (value : ByteView) (c : cache) : result cache :=
  l ← lru.Add fuel key value (lru_ c);
  Ret {| lru_ := l |}.

(** *** What a group does to the outside world *)

(** The capabilities a group consumes are called at most a few times per
    lookup; every call is recorded. *)
Inductive event : Type :=
| Retrieved (key : string)
| Picked (key : string)
| Fetched (group key : string).

Definition trace : Type := list event.

(** [type Retriever interface { retrieve(key string) ([]byte, error) }]; the
    answer may depend on what happened before. *)
Record Retriever : Type := {
  retrieve : string → trace → bytes * option error;
}.

(** *** client.go *)

(** [type client struct { name string }] *)
Record client : Type := {
  cname : string;
}.

(** [func NewClient(peerAddr string) *client] *)
Definition NewClient (peerAddr : string) : client := {| cname := peerAddr |}.

(** [func (c *client) Fetch(group string, key string) ([]byte, error)], the
    variant that goes with server.go: it answers without touching [c], also
    when [c] is the nil pointer. *)
Definition client_Fetch (c : option client) (group key : string) : bytes * option error :=
  ([], None).

(** [type Fetcher interface]: a [*client], or any other implementation. *)
Inductive Fetcher : Type :=
| FetcherClient (c : option client)
| FetcherOther (fetch : string → string → trace → bytes * option error).

(** *** server.go *)

Definition defaultAddr : string := "127.0.0.1:6324".
Definition defaultReplicas : Z := 50.

(** [type server struct]; a nil [consHash] is [None], [clients] reads as the
    empty map while it is nil. *)
Record server : Type := {
  addr : string;
  status : bool;
  consHash : option consistenthash.Consistentency;
  clients : gmap string client;
}.

Section utils.
(** [utils.ValidPeerAddr], which rests on the address parsers of package net. *)
Variable ValidPeerAddr : string → bool.

(** [func NewServer(addr string)], which returns a pointer to [server] and an
    [error]. *)
Definition NewServer (addr : string) : option server * option error :=
  let addr := if String.eqb addr "" then defaultAddr else addr in
  if negb (ValidPeerAddr addr) then
    (None, Some (Errorf ("invalid addr " +:+ addr +:+ ", it should be x.x.x.x:port")))
  else
    (Some {| addr := addr; status := false; consHash := None; clients := ∅ |}, None).

(** The loop of [SetPeers] that makes one client per peer. *)
Fixpoint SetPeers_clients (peersAddr : list string) (s : server) : result server :=
  match peersAddr with
  | [] => Ret s
  | peerAddr :: rest =>
      if negb (ValidPeerAddr peerAddr) then
        Panic ("[peer " +:+ peerAddr +:+ "] invalid address format, it should be x.x.x.x:port")
      else
        SetPeers_clients rest
          {| addr := addr s;
             status := status s;
             consHash := consHash s;
             clients := <[peerAddr := NewClient ("gocache/" +:+ peerAddr)]> (clients s) |}
  end.

(** [func (s *server) SetPeers(peersAddr ...string)] *)
Definition SetPeers (peersAddr : list string) (s : server) : result server :=
  let ring := consistenthash.New defaultReplicas None in
  let ring := consistenthash.Register peersAddr ring in
  SetPeers_clients peersAddr
    {| addr := addr s; status := status s; consHash := Some ring; clients := ∅ |}.

End utils.

(** [func (s *server) Pick(key string) (Fetcher, bool)] *)
Definition Pick (key : string) (s : server) : result (option Fetcher * bool) :=
  match consHash s with
  | None => Panic "invalid memory address or nil pointer dereference"
  | Some ring =>
      peerAddr ← consistenthash.GetPeer key ring;
      if String.eqb peerAddr (addr s) then Ret (None, false)
      else Ret (Some (FetcherClient (clients s !! peerAddr)), true)
  end.

(** [func (s *server) Stop()]: its body is empty in server.go. *)
Definition Stop (s : server) : server := s.

(** *** peers.go *)

(** [type Picker interface]: a [*server], or any other implementation. *)
Inductive Picker : Type :=
| PickerServer (s : server)
| PickerOther (pick : string → trace → option Fetcher * bool).

(** The interface call [p.Pick(key)]. *)
Definition Picker_Pick (p : Picker) (key : string) (tr : trace)
  : result ((option Fetcher * bool) * trace) :=
  match p with
  | PickerServer s => r ← Pick key s; Ret (r, tr ++ [Picked key])
  | PickerOther pick => Ret (pick key tr, tr ++ [Picked key])
  end.

(** The interface call [fetcher.Fetch(group, key)]; on the nil interface it
    panics. *)
Definition Fetch (fetcher : option Fetcher) (group key : string) (tr : trace)
  : result ((bytes * option error) * trace) :=
  match fetcher with
  | None => Panic "invalid memory address or nil pointer dereference"
  | Some (FetcherClient c) => Ret (client_Fetch c group key, tr ++ [Fetched group key])
  | Some (FetcherOther fetch) => Ret (fetch group key tr, tr ++ [Fetched group key])
  end.

(** *** gocache.go *)

(** [type Group struct] *)
Record Group : Type := {
  name : string;
  cache_ : cache;
  retriever : Retriever;
  server_ : option Picker;
  flight : singleflight.Flight ByteView;
}.

Definition set_cache (c : cache) (g : Group) : Group :=
  {| name := name g; cache_ := c; retriever := retriever g;
     server_ := server_ g; flight := flight g |}.

Definition set_server (p : option Picker) (g : Group) : Group :=
  {| name := name g; cache_ := cache_ g; retriever := retriever g;
     server_ := p; flight := flight g |}.

Definition set_flight (f : singleflight.Flight ByteView) (g : Group) : Group :=
  {| name := name g; cache_ := cache_ g; retriever := retriever g;
     server_ := server_ g; flight := f |}.

(** A group at work: the group and the calls made so far. *)
Definition state : Type := Group * trace.

#[global] Instance state_HasFlight : singleflight.HasFlight ByteView state := {|
  singleflight.get_flight := λ s, flight s.1;
  singleflight.set_flight := λ f s, (set_flight f s.1, s.2);
|}.

(** [func (g *Group) populateCache(key string, value ByteView)] *)
Definition populateCache (fuel : nat) (key : string) (value : ByteView) (s : state)
  : result state :=
  c ← add fuel key value (cache_ s.1);
  Ret (set_cache c s.1, s.2).

(** [func (g *Group) getLocally(key string) (ByteView, error)] *)
Definition getLocally (fuel : nat) (key : string) (s : state)
  : result ((ByteView * option error) * state) :=
  let '(bytes, err) := retrieve (retriever s.1) key s.2 in
  let s := (s.1, s.2 ++ [Retrieved key]) in
  match err with
  | Some e => Ret ((ByteView_zero, Some e), s)
  | None =>
      let value := {| b := cloneBytes bytes |} in
      s ← populateCache fuel key value s;
      Ret ((value, None), s)
  end.

(** The first half of the function literal in [load]: the bytes a peer
    delivered, if a peer router is attached, picks a peer and that peer
    answers without error. *)
Definition peerBytes (p : option Picker) (group key : string) (tr : trace)
  : result (option bytes * trace) :=
  match p with
  | Some p =>
      '((fetcher, ok), tr) ← Picker_Pick p key tr;
      if ok : bool then
        '((bytes, err), tr) ← Fetch fetcher group key tr;
        match err with
        | None => Ret (Some bytes, tr)
        | Some _ => Ret (None, tr)
        end
      else Ret (None, tr)
  | None => Ret (None, tr)
  end.

Definition fromPeer (key : string) (s : state) : result (option bytes * state) :=
  '(remote, tr) ← peerBytes (server_ s.1) (name s.1) key s.2;
  Ret (remote, (s.1, tr)).

(** The function literal handed to [Fly] in [load]. *)
Definition loader (fuel : nat) (key : string) (s : state)
  : result ((option ByteView * option error) * state) :=
  '(remote, s) ← fromPeer key s;
  match remote with
  | Some bytes => Ret ((Some {| b := bytes |}, None), s)
  | None => '((v, err), s) ← getLocally fuel key s; Ret ((Some v, err), s)
  end.

(** [func (g *Group) load(key string) (value ByteView, err error)] *)
Definition load (fuel : nat) (key : string) (s : state)
  : result ((ByteView * option error) * state) :=
  '((view, err), s) ← singleflight.Fly key (loader fuel key) s;
  match err with
  | None =>
      match view with
      | Some v => Ret ((v, None), s)
      | None => Panic "interface conversion: interface is nil, not gocache.ByteView"
      end
  | Some e => Ret ((ByteView_zero, Some e), s)
  end.

(** [func (g *Group) Get(key string) (ByteView, error)] *)
Definition Get (fuel : nat) (key : string) (s : state)
  : result ((ByteView * option error) * state) :=
  if String.eqb key "" then Ret ((ByteView_zero, Some (Errorf "key is required")), s)
  else
    '((v, ok), c) ← get key (cache_ s.1);
    let s := (set_cache c s.1, s.2) in
    if ok : bool then Ret ((v, None), s)
    else load fuel key s.

(** [func (g *Group) RegisterSvr(p Picker)] *)
Definition RegisterSvr (p : Picker) (g : Group) : result Group :=
  match server_ g with
  | Some _ => Panic "group has been registered server"
  | None => Ret (set_server (Some p) g)
  end.

(** The package variable [groups], a map to [*Group], and the groups the
    pointers lead to. *)
Record directory : Type := {
  groups : gmap string nat;
  heap : gmap nat Group;
}.

(** [func NewGroup(name string, maxBytes int64, retriever Retriever) *Group];
    a nil [retriever] is [None]. *)
Definition NewGroup (name : string) (maxBytes : Z) (retriever : option Retriever)
  (d : directory) : result nat * directory :=
  match retriever with
  | None => (Panic "Retriver is nil.", d)
  | Some r =>
      let g := {| name := name;
                  cache_ := newCache maxBytes;
                  retriever := r;
                  server_ := None;
                  flight := {| singleflight.flight := None |} |} in
      let p := fresh (dom (heap d)) in
      (Ret p, {| groups := <[name := p]> (groups d); heap := <[p := g]> (heap d) |})
  end.

(** [func GetGroup(name string) *Group]; the nil pointer is [None]. *)
Definition GetGroup (name : string) (d : directory) : option nat := groups d !! name.

(** [func DestoryGroup(name string)]; the type assertion on [g.server]
    panics unless the interface holds a [*server]. *)
Definition DestoryGroup (name : string) (d : directory) : result unit * directory :=
  match GetGroup name d with
  | Some g =>
      match heap d !! g with
      | Some grp =>
          match server_ grp with
          | Some (PickerServer srv) =>
              let srv := Stop srv in
              (Ret (),
               {| groups := delete name (groups d);
                  heap := <[g := set_server (Some (PickerServer srv)) grp]> (heap d) |})
          | Some (PickerOther _) =>
              (Panic "interface conversion: gocache.Picker is not *gocache.server", d)
          | None =>
              (Panic "interface conversion: gocache.Picker is nil, not *gocache.server", d)
          end
      | None => (Panic "invalid memory address or nil pointer dereference", d)
      end
  | None => (Ret (), d)
  end.

End gocache.

(** * Properties *)

Import gocache.

(** A [ByteView] over the bytes of a string literal. *)
Definition view (s : string) : ByteView := {| b := list_byte_of_string s |}.

(** A loader that knows one value. *)
Definition origin (value : string) : Retriever :=
  {| retrieve := λ _ _, (list_byte_of_string value, None) |}.

(** A loader that fails. *)
Definition broken_origin (msg : string) : Retriever :=
  {| retrieve := λ _ _, ([], Some (Errorf msg)) |}.

(** A peer router that always names a peer, whose fetch always fails. *)
Definition unreachable_peer : Picker :=
  PickerOther (λ _ _, (Some (FetcherOther (λ _ _ _, ([], Some (Errorf "peer unreachable")))),
                       true)).

(** A new group, as [NewGroup] makes it, with a peer router attached. *)
Definition group_of (name : string) (maxBytes : Z) (r : Retriever) (p : option Picker)
  : Group :=
  {| gocache.name := name;
     cache_ := newCache maxBytes;
     retriever := r;
     server_ := p;
     flight := {| singleflight.flight := None |} |}.

(** The group once a lookup went through [load]: the flight table exists, the
    record of the key is gone again, and the cache is [c]. *)
Definition after_load (c : cache) (g : Group) : Group :=
  set_flight {| singleflight.flight := Some (singleflight.table (flight g)) |}
    (set_cache c g).

(** *** Notions used to state what the packages keep *)

(** The index a cache should have: for every element of the list, its key
    and its address. *)
Definition lru_index {V : Type} (c : lru.Cache V) : list (string * nat) :=
  (λ x, (lru.key (lru.elem_Value x), lru.ptr x)) <$> lru.doublyLinkedList c.

(** List and index of a cache agree: keys are cached once, elements have
    distinct addresses below the next address to hand out, and [hashmap]
    holds exactly the pairs of [lru_index]. *)
Definition consistent {V : Type} (c : lru.Cache V) : Prop :=
  NoDup (lru_index c).*1
  ∧ NoDup (lru_index c).*2
  ∧ (∀ k e, lru.hashmap c !! k = Some e ↔ (k, e) ∈ lru_index c)
  ∧ (∀ k e, (k, e) ∈ lru_index c → (e < lru.alloc c)%nat).

(** The tracked length is the sum of the entry sizes, and within the
    capacity. *)
Definition accounted {V : Type} `{!lru.Lengthable V} (c : lru.Cache V) : Prop :=
  consistent c
  ∧ lru.length c = lru.total_size c
  ∧ lru.total_size c ≤ lru.capacity c.

(** An eviction callback that appends what it is called with to a log. *)
Definition recorder {V : Type} : lru.OnEliminated V :=
  {| lru.env_t := list (string * V);
     lru.env := [];
     lru.call := λ k v log, log ++ [(k, v)] |}.

(** [func (v ByteView) ByteSlice() []byte] *)
Definition ByteSlice (v : ByteView) : bytes := cloneBytes (b v).

(** [func (v ByteView) String() string] *)
Definition ByteView_String (v : ByteView) : string := string_of_list_byte (b v).

(** The members a ring was given, in the order of the [Register] calls. *)
Inductive registered : list string → consistenthash.Consistentency → Prop :=
| registered_New replicas fn : registered [] (consistenthash.New replicas fn)
| registered_Register members peersName c :
    registered members c →
    registered (members ++ peersName) (consistenthash.Register peersName c).

(** A cache with capacity 10 and a recording callback that holds ["B"] and,
    least recently used, ["A"], both with empty values. *)
Definition cache_AB : lru.Cache ByteView :=
  {| lru.capacity := 10;
     lru.length := 2;
     lru.doublyLinkedList :=
       [ {| lru.ptr := 1%nat;
            lru.elem_Value := {| lru.key := "B"; lru.value := view "" |} |};
         {| lru.ptr := 0%nat;
            lru.elem_Value := {| lru.key := "A"; lru.value := view "" |} |} ];
     lru.hashmap := {[ "A"%string := 0%nat; "B"%string := 1%nat ]};
     lru.callback := Some recorder;
     lru.alloc := 2%nat |}.

(** A peer router that always names a peer, whose fetch delivers [value]. *)
Definition reachable_peer (value : string) : Picker :=
  PickerOther (λ _ _, (Some (FetcherOther (λ _ _ _, (list_byte_of_string value, None))),
                       true)).

(** The LRU of capacity 1024 that holds ["560"] for ["Tom"]. *)
Definition cache_Tom : lru.Cache ByteView :=
  {| lru.capacity := 1024;
     lru.length := 6;
     lru.doublyLinkedList :=
       [ {| lru.ptr := 0%nat;
            lru.elem_Value := {| lru.key := "Tom"; lru.value := view "560" |} |} ];
     lru.hashmap := {[ "Tom"%string := 0%nat ]};
     lru.callback := None;
     lru.alloc := 1%nat |}.

(** Group "scores" with that cache. *)
Definition scores_with_Tom (r : Retriever) (p : option Picker) : Group :=
  {| gocache.name := "scores";
     cache_ := {| lru_ := cache_Tom |};
     retriever := r;
     server_ := p;
     flight := {| singleflight.flight := Some ∅ |} |}.

(** Ring [c'] is ring [c] with the hashes [news] appended, each of them a
    [uint32] owned by one of [peersName]; the other hashes keep their
    owner. *)
Definition grown (peersName : list string) (news : list Z)
    (c c' : consistenthash.Consistentency) : Prop :=
  consistenthash.hash c' = consistenthash.hash c
  ∧ consistenthash.replicas c' = consistenthash.replicas c
  ∧ consistenthash.ring c' = consistenthash.ring c ++ news
  ∧ (∀ x, x ∈ news →
       0 ≤ x < 2 ^ 32
       ∧ ∃ q, q ∈ peersName ∧ consistenthash.hashMap c' !! x = Some q)
  ∧ (∀ x, x ∉ news → consistenthash.hashMap c' !! x = consistenthash.hashMap c !! x).

(** [pb.GetResponse], of which [server.Get] sets the field [Value]; the nil
    slice is the empty list. *)
Record GetResponse : Type := {
  Value : bytes;
}.

(** [func (s *server) Get], the rpc method of the server that registers with
    grpc: it takes a [pb.GetRequest], whose fields are [group] and [key], and
    returns a [pb.GetResponse] and an [error].  The group is read at, and
    written back to, the address the directory gives. *)
Definition server_Get (fuel : nat) (s : server) (group key : string)
    (d : directory) (tr : trace)
  : result ((GetResponse * option error) * (directory * trace)) :=
  let resp := {| Value := [] |} in
  if String.eqb key "" then Ret ((resp, Some (Errorf "empty key")), (d, tr))
  else
    match GetGroup group d with
    | None => Ret ((resp, Some (Errorf "group is not found")), (d, tr))
    | Some g =>
        match heap d !! g with
        | None => Panic "invalid memory address or nil pointer dereference"
        | Some grp =>
            '((v, err), (grp, tr)) ← Get fuel key (grp, tr);
            let d := {| groups := groups d; heap := <[g := grp]> (heap d) |} in
            match err with
            | Some e => Ret ((resp, Some e), (d, tr))
            | None => Ret (({| Value := ByteSlice v |}, None), (d, tr))
            end
        end
    end.

(** A pointer to [server] with the state of its mutex [mu], [true] while it
    is locked;
    [sync.Mutex] is not reentrant, so [Lock] on a locked mutex waits. *)
Record guarded : Type := {
  srv : server;
  mu : bool;
}.

(** [func (s *server) Start() error] of server.go: the mutex is unlocked on
    the path that reports an error and on no other. *)
Definition Start (g : guarded) : result (option error * guarded) :=
  if mu g then Blocked
  else if status (srv g) then
    Ret (Some (Errorf "server already started"), {| srv := srv g; mu := false |})
  else
    Ret (None,
         {| srv := {| addr := addr (srv g); status := true;
                      consHash := consHash (srv g); clients := clients (srv g) |};
            mu := true |}).

(** [Pick] with its [s.mu.Lock(); defer s.mu.Unlock()]. *)
Definition guarded_Pick (key : string) (g : guarded)
  : result ((option Fetcher * bool) * guarded) :=
  if mu g then Blocked
  else r ← Pick key (srv g); Ret (r, {| srv := srv g; mu := false |}).

(** [SetPeers] with its [s.mu.Lock(); defer s.mu.Unlock()]. *)
Definition guarded_SetPeers (ValidPeerAddr : string → bool) (peersAddr : list string)
    (g : guarded) : result guarded :=
  if mu g then Blocked
  else s ← SetPeers ValidPeerAddr peersAddr (srv g); Ret {| srv := s; mu := false |}.

(** ** Arithmetic of the integer types *)

Lemma int64_small (z : Z) : - 2 ^ 63 ≤ z < 2 ^ 63 → int64 z = z.
Proof.
  intros Hz. unfold int64.
  rewrite Z.mod_small by lia. lia.
Qed.

(** ** The eviction loop of the LRU cache *)

Section eviction.
Context {V : Type} `{!lru.Lengthable V}.

(** With nothing left to evict, [Remove] changes nothing. *)
Lemma Remove_empty (c : lru.Cache V) :
  lru.doublyLinkedList c = [] → lru.Remove c = c.
Proof. intros Hl. unfold lru.Remove, lru.Back. by rewrite Hl. Qed.

(** So the loop cannot leave a state in which its guard holds and the list
    is empty, whatever the number of iterations it is given. *)
Lemma evict_spins (fuel : nat) (kvSize : Z) (c : lru.Cache V) :
  lru.doublyLinkedList c = [] →
  lru.over kvSize c = true →
  lru.evict fuel kvSize c = OutOfFuel.
Proof.
  intros Hl Hover. induction fuel as [|fuel IH]; simpl; rewrite Hover.
  - reflexivity.
  - by rewrite Remove_empty.
Qed.

(** The loop is not entered when the guard is false. *)
Lemma evict_fits (fuel : nat) (kvSize : Z) (c : lru.Cache V) :
  lru.over kvSize c = false → lru.evict fuel kvSize c = Ret c.
Proof. intros Hover. destruct fuel; simpl; by rewrite Hover. Qed.

(** An entry larger than a positive capacity: [Add] on the empty cache does
    not return. *)
Lemma Add_oversized_spins (fuel : nat) (maxBytes : Z) (cb : option (lru.OnEliminated V))
    (k : string) (v : V) :
  0 < maxBytes →
  maxBytes < lru.len_entry k v < 2 ^ 63 →
  lru.Add fuel k v (lru.New maxBytes cb) = OutOfFuel.
Proof.
  intros Hcap Hsize. unfold lru.Add, lru.len_entry in *.
  rewrite evict_spins; [done..|].
  unfold lru.over; simpl.
  rewrite (int64_small (len k + lru.Len v)) by lia.
  rewrite Z.add_0_r, int64_small by lia.
  apply andb_true_iff; split.
  - apply negb_true_iff, Z.eqb_neq. lia.
  - apply Z.ltb_lt. lia.
Qed.

End eviction.

(** ** The capacity bound of the LRU cache *)

Section capacity.
Context {V : Type} `{!lru.Lengthable V}.

Lemma Remove_capacity (c : lru.Cache V) :
  lru.capacity (lru.Remove c) = lru.capacity c.
Proof. unfold lru.Remove. by destruct (lru.Back _). Qed.

(** [Remove] only ever deletes from the index. *)
Lemma Remove_absent (c : lru.Cache V) (k : string) :
  lru.hashmap c !! k = None → lru.hashmap (lru.Remove c) !! k = None.
Proof.
  intros Hk. unfold lru.Remove. destruct (lru.Back _); [|done].
  simpl. rewrite lookup_delete. by case_decide.
Qed.

(** When the loop is left, its guard is false; capacity is untouched and no
    key has entered the index. *)
Lemma evict_Ret (fuel : nat) (kvSize : Z) (c c' : lru.Cache V) :
  lru.evict fuel kvSize c = Ret c' →
  lru.over kvSize c' = false ∧
  lru.capacity c' = lru.capacity c ∧
  ∀ k, lru.hashmap c !! k = None → lru.hashmap c' !! k = None.
Proof.
  revert c. induction fuel as [|fuel IH]; intros c; simpl.
  - destruct (lru.over kvSize c) eqn:Hover; [done|].
    intros [= <-]. done.
  - destruct (lru.over kvSize c) eqn:Hover.
    + intros Hev. destruct (IH _ Hev) as (Hg & Hcap & Hmap).
      split; [done|]. split.
      * by rewrite Hcap, Remove_capacity.
      * intros k Hk. by apply Hmap, Remove_absent.
    + intros [= <-]. done.
Qed.

(** Inserting a key that was not cached keeps the tracked length within a
    nonzero capacity: this is the path of [Add] that accounts correctly. *)
Lemma Add_insert_bounded (fuel : nat) (k : string) (v : V) (c c' : lru.Cache V) :
  lru.capacity c ≠ 0 →
  lru.hashmap c !! k = None →
  lru.Add fuel k v c = Ret c' →
  lru.length c' ≤ lru.capacity c.
Proof.
  intros Hcap Hk. unfold lru.Add.
  destruct (lru.evict fuel _ c) as [c1| | |] eqn:Hev; simpl; try done.
  destruct (evict_Ret _ _ _ _ Hev) as (Hg & Hcap1 & Hmap).
  rewrite (Hmap k Hk). intros [= <-]. simpl.
  unfold lru.over in Hg. rewrite Hcap1 in Hg.
  apply andb_false_iff in Hg as [Hg|Hg].
  - apply negb_false_iff, Z.eqb_eq in Hg. done.
  - apply Z.ltb_ge in Hg. by rewrite Z.add_comm.
Qed.

End capacity.

(** ** When the eviction loop does end *)

Section termination.
Context {V : Type} `{!lru.Lengthable V}.
Hypothesis Len_nonneg : ∀ v : V, 0 ≤ lru.Len v.

Lemma entry_size_nonneg (x : lru.Element V) : 0 ≤ lru.entry_size x.
Proof.
  unfold lru.entry_size, lru.len_entry, len.
  pose proof (Len_nonneg (lru.value (lru.elem_Value x))). lia.
Qed.

Lemma sizes_snoc (l : list (lru.Element V)) (x : lru.Element V) :
  foldr (λ x acc, lru.entry_size x + acc) 0 (l ++ [x])
  = foldr (λ x acc, lru.entry_size x + acc) 0 l + lru.entry_size x.
Proof. induction l as [|y l IH]; simpl; lia. Qed.

Lemma sizes_nonneg (l : list (lru.Element V)) :
  0 ≤ foldr (λ x acc, lru.entry_size x + acc) 0 l.
Proof.
  induction l as [|y l IH]; simpl; [done|].
  pose proof (entry_size_nonneg y). lia.
Qed.

(** Unlinking the last element of a list of distinct addresses. *)
Lemma list_Remove_last (l : list (lru.Element V)) (x : lru.Element V) :
  lru.ptr x ∉ lru.ptr <$> l →
  lru.list_Remove (lru.ptr x) (l ++ [x]) = l.
Proof.
  intros Hx. unfold lru.list_Remove. rewrite List.filter_app. simpl.
  rewrite Nat.eqb_refl. simpl. rewrite app_nil_r.
  induction l as [|y l IH]; simpl; [done|].
  rewrite fmap_cons in Hx. apply not_elem_of_cons in Hx as [Hne Hx].
  destruct (Nat.eqb_spec (lru.ptr y) (lru.ptr x)) as [Heq|_]; [congruence|].
  simpl. by rewrite IH.
Qed.

(** [Remove] on a list that ends in [x]. *)
Lemma Remove_snoc (c : lru.Cache V) (l : list (lru.Element V)) (x : lru.Element V) :
  lru.doublyLinkedList c = l ++ [x] →
  lru.ptr x ∉ lru.ptr <$> l →
  lru.doublyLinkedList (lru.Remove c) = l
  ∧ lru.length (lru.Remove c) = int64 (lru.length c - int64 (lru.entry_size x)).
Proof.
  intros Hl Hx. unfold lru.Remove, lru.Back. rewrite Hl, last_snoc. simpl.
  by rewrite list_Remove_last.
Qed.

(** If the tracked length is the sum of the entry sizes, the elements have
    distinct addresses and the entry to add fits the capacity (or the
    capacity is 0), the eviction loop ends within as many iterations as
    there are entries. *)
Lemma evict_returns (kvSize : Z) (n : nat) (c : lru.Cache V) :
  List.length (lru.doublyLinkedList c) = n →
  NoDup (lru.ptr <$> lru.doublyLinkedList c) →
  lru.length c = lru.total_size c →
  0 ≤ kvSize →
  lru.capacity c = 0 ∨ kvSize ≤ lru.capacity c →
  kvSize + lru.total_size c < 2 ^ 63 →
  ∃ c', lru.evict n kvSize c = Ret c'.
Proof.
  revert c. induction n as [|n IH]; intros c Hlen Hdup Htracked Hkv Hfit Hbound.
  - destruct (lru.over kvSize c) eqn:Hover; [|by rewrite evict_fits; eauto].
    exfalso. apply length_zero_iff_nil in Hlen.
    unfold lru.over in Hover. apply andb_true_iff in Hover as [Hcap Hgt].
    apply negb_true_iff, Z.eqb_neq in Hcap. apply Z.ltb_lt in Hgt.
    unfold lru.total_size in *. rewrite Htracked, Hlen in Hgt. simpl in Hgt.
    rewrite Hlen in Hbound. simpl in Hbound.
    rewrite int64_small in Hgt by lia. lia.
  - destruct (lru.over kvSize c) eqn:Hover; [|by rewrite evict_fits; eauto].
    simpl. rewrite Hover.
    destruct (exists_last (l := lru.doublyLinkedList c)) as (l & x & Hl).
    { intros Hnil. by rewrite Hnil in Hlen. }
    unfold lru.total_size in *. rewrite Hl in Hlen, Hdup, Htracked, Hbound.
    rewrite fmap_app in Hdup. apply NoDup_app in Hdup as (Hdup & Hnotin & _).
    rewrite sizes_snoc in Htracked, Hbound. rewrite length_app in Hlen. simpl in Hlen.
    pose proof (entry_size_nonneg x) as Hx. pose proof (sizes_nonneg l) as Hsum.
    destruct (Remove_snoc c l x Hl) as [Hl' Hlength'].
    { intros Hin. apply (Hnotin _ Hin). simpl. by apply list_elem_of_singleton. }
    apply IH; rewrite ?Hl', ?Hlength', ?Remove_capacity; try done; try lia.
    rewrite Htracked, (int64_small (lru.entry_size x)) by lia.
    rewrite int64_small by lia. lia.
Qed.

End termination.

(** An [Add] that returns leaves its value to be found by [Get]. *)
Lemma Add_then_Get {V : Type} `{!lru.Lengthable V} (fuel : nat) (k : string) (v : V)
    (c c' : lru.Cache V) :
  lru.Add fuel k v c = Ret c' →
  ∃ c'', lru.Get k c' = Ret ((Some v, true), c'').
Proof.
  unfold lru.Add.
  destruct (lru.evict fuel _ c) as [c1| | |]; simpl; try done.
  destruct (lru.hashmap c1 !! k) as [elem|] eqn:Hk.
  - destruct (lru.elem_at elem (lru.doublyLinkedList c1)) as [x|] eqn:Hx; [|done].
    intros [= <-]. unfold lru.Get. simpl. rewrite Hk.
    unfold lru.MoveToFront. rewrite Hx.
    apply find_some in Hx as [_ Hptr]. simpl. rewrite Hptr. simpl. rewrite Hptr.
    eauto.
  - intros [= <-]. unfold lru.Get. simpl. rewrite lookup_insert_eq. simpl.
    rewrite Nat.eqb_refl. eauto.
Qed.

(** Recency: with room for two entries of size 1, after [Add A], [Add B],
    [Get A], the entry evicted by [Add C] is [B]. *)
Example Add_evicts_least_recently_used :
  ∃ c, lru.run 1 [lru.OpAdd "A" (view ""); lru.OpAdd "B" (view ""); lru.OpGet "A";
                  lru.OpAdd "C" (view "")] (lru.New 2 None) = Ret c
       ∧ lru.keys c = ["C"; "A"]%string ∧ lru.length c = 2.
Proof. eexists. split; [vm_compute; reflexivity|]. vm_compute. done. Qed.

(** C1 (the code breaks the capacity invariant).  Replacing the value of a
    cached key adds the old length minus the new one to the tracked length.
    With capacity 10, growing the value of ["k"] from 0 to 4 bytes drives the
    tracked length down to -3, so that a 9-byte entry is then admitted without
    eviction: the entries hold 14 bytes, the tracked length says 6.  Shrinking
    a value from 8 bytes to none drives the tracked length up to 17 while the
    only entry holds 1 byte. *)
Theorem C1_update_breaks_capacity_bound :
  (∃ c, lru.run 0 [lru.OpAdd "k" (view ""); lru.OpAdd "k" (view "aaaa");
                   lru.OpAdd "j" (view "bbbbbbbb")] (lru.New 10 None) = Ret c
        ∧ lru.capacity c = 10 ∧ lru.total_size c = 14 ∧ lru.length c = 6
        ∧ lru.keys c = ["j"; "k"]%string)
  ∧ (∃ c, lru.run 0 [lru.OpAdd "k" (view "aaaaaaaa"); lru.OpAdd "k" (view "")]
                   (lru.New 10 None) = Ret c
        ∧ lru.capacity c = 10 ∧ lru.total_size c = 1 ∧ lru.length c = 17).
Proof.
  split; eexists; (split; [vm_compute; reflexivity|]); vm_compute; done.
Qed.

(** C2 (the code does not terminate).  With capacity 1, adding the 3-byte
    entry ["ab"] ↦ ["x"] to the empty cache never returns: the guard of the
    eviction loop holds, [Remove] finds no element to evict and leaves the
    tracked length at 0, so the guard holds again, for any number of
    iterations. *)
Theorem C2_Add_oversized_entry_never_returns :
  ∀ fuel : nat, lru.Add fuel "ab" (view "x") (lru.New 1 None) = OutOfFuel.
Proof.
  intros fuel. apply Add_oversized_spins; [lia|].
  vm_compute. split; reflexivity.
Qed.

(** ** The consistent-hash ring *)

(** [sort.Search] finds the boundary of a predicate that is false below [k]
    and true from [k] on. *)
Lemma search_loop_spec (f : Z → bool) (k : Z) (fuel : nat) (i j : Z) :
  i ≤ k ≤ j →
  j - i ≤ Z.of_nat fuel →
  (∀ x, i ≤ x < k → f x = false) →
  (∀ x, k ≤ x < j → f x = true) →
  sort.search_loop fuel f i j = k.
Proof.
  revert i j. induction fuel as [|fuel IH]; intros i j Hk Hfuel Hlo Hhi; simpl.
  - destruct (Z.ltb_spec i j); lia.
  - destruct (Z.ltb_spec i j) as [Hlt|Hge]; [|lia].
    assert (i ≤ Z.shiftr (i + j) 1 < j) as Hh.
    { rewrite Z.shiftr_div_pow2 by lia. change (2 ^ 1) with 2.
      split; [apply Z.div_le_lower_bound|apply Z.div_lt_upper_bound]; lia. }
    set (h := Z.shiftr (i + j) 1) in *.
    destruct (f h) eqn:Hf; simpl.
    + assert (k ≤ h) as Hkh.
      { destruct (Z_lt_le_dec h k) as [Hhk|]; [|done].
        rewrite Hlo in Hf by lia. done. }
      apply IH; [lia|lia|done|]. intros x Hx. apply Hhi. lia.
    + assert (h < k) as Hhk.
      { destruct (Z_lt_le_dec h k) as [|Hkh]; [done|].
        rewrite Hhi in Hf by lia. done. }
      apply IH; [lia|lia| |done]. intros x Hx. apply Hlo. lia.
Qed.

Lemma Search_spec (n : Z) (f : Z → bool) (k : Z) :
  0 ≤ k ≤ n →
  (∀ x, 0 ≤ x < k → f x = false) →
  (∀ x, k ≤ x < n → f x = true) →
  sort.Search n f = k.
Proof.
  intros Hk Hlo Hhi. unfold sort.Search.
  apply search_loop_spec; [done|lia|done..].
Qed.

(** Entries of a sorted list are ordered like their indices. *)
Lemma StronglySorted_lookup (l : list Z) (i j : nat) (x y : Z) :
  StronglySorted Z.le l →
  l !! i = Some x → l !! j = Some y → (i ≤ j)%nat → x ≤ y.
Proof.
  intros Hs. revert i j. induction Hs as [|a l Hs IH Hall]; intros i j Hi Hj Hij.
  - done.
  - destruct i as [|i], j as [|j]; simpl in *.
    + injection Hi as <-. injection Hj as <-. lia.
    + injection Hi as <-. rewrite Forall_forall in Hall.
      apply Hall. by eapply list_elem_of_lookup_2.
    + lia.
    + eapply IH; [done..|lia].
Qed.

(** The hash index of every ring a program can hold is sorted. *)
Lemma built_sorted (c : consistenthash.Consistentency) :
  consistenthash.built c → StronglySorted Z.le (consistenthash.ring c).
Proof.
  intros [replicas fn|peersName c0 _]; simpl.
  - constructor.
  - unfold sort.Ints. apply StronglySorted_merge_sort; apply _.
Qed.

(** C6: on a ring made by [New] and [Register], [Get] returns the empty
    string when the ring has no entry; the owner of the entry at the first
    index whose hash is at least the hash of the key when there is one; and,
    when every entry is below the hash of the key, the owner of the first
    entry, which is the smallest. *)
Theorem C6_Get_locates_owner (c : consistenthash.Consistentency) (key : string) :
  consistenthash.built c →
  let h := consistenthash.hashOf c key in
  (consistenthash.ring c = [] → consistenthash.Get key c = Ret ""%string)
  ∧ (∀ (i : nat) (x : Z),
       consistenthash.ring c !! i = Some x →
       h ≤ x →
       (∀ (j : nat) (y : Z), (j < i)%nat → consistenthash.ring c !! j = Some y → y < h) →
       consistenthash.Get key c = Ret (consistenthash.owner c x))
  ∧ (∀ m : Z,
       (∀ x, x ∈ consistenthash.ring c → x < h) →
       head (consistenthash.ring c) = Some m →
       consistenthash.Get key c = Ret (consistenthash.owner c m)
       ∧ ∀ x, x ∈ consistenthash.ring c → m ≤ x).
Proof.
  intros Hbuilt h. apply built_sorted in Hbuilt.
  unfold consistenthash.Get. fold h.
  set (n := Z.of_nat (List.length (consistenthash.ring c))).
  split; [|split].
  - intros Hnil. subst n. by rewrite Hnil.
  - intros i x Hi Hx Hbelow.
    pose proof (lookup_lt_Some _ _ _ Hi) as Hlen.
    destruct (Z.eqb_spec n 0) as [|_]; [lia|].
    rewrite (Search_spec n _ (Z.of_nat i)).
    + rewrite Z.mod_small by lia. by rewrite Nat2Z.id, Hi.
    + lia.
    + intros z Hz. unfold consistenthash.ge_at.
      destruct (consistenthash.ring c !! Z.to_nat z) as [y|] eqn:Hy; [|done].
      apply Z.leb_gt. apply (Hbelow (Z.to_nat z)); [lia|done].
    + intros z Hz. unfold consistenthash.ge_at.
      destruct (lookup_lt_is_Some_2 (consistenthash.ring c) (Z.to_nat z)) as [y Hy]; [lia|].
      rewrite Hy. apply Z.leb_le.
      pose proof (StronglySorted_lookup _ i (Z.to_nat z) x y Hbuilt Hi Hy). lia.
  - intros m Hall Hm.
    destruct (consistenthash.ring c) as [|m' l] eqn:Hring; [done|].
    injection Hm as ->.
    assert (∀ x, x ∈ m :: l → m ≤ x) as Hmin.
    { intros x Hin. apply list_elem_of_lookup_1 in Hin as [j Hj].
      apply (StronglySorted_lookup (m :: l) 0 j m x); [done..|lia]. }
    split; [|done].
    destruct (Z.eqb_spec n 0) as [Hn|_]; [subst n; simpl in Hn; lia|].
    rewrite (Search_spec n _ n).
    + rewrite Z_mod_same_full. done.
    + lia.
    + intros z Hz. unfold consistenthash.ge_at. rewrite Hring.
      destruct ((m :: l) !! Z.to_nat z) as [y|] eqn:Hy; [|done].
      apply Z.leb_gt, Hall. by eapply list_elem_of_lookup_2.
    + lia.
Qed.

(** A ring of two members with three virtual nodes each: the hash of ["Tom"]
    lies between the third and the fourth entry, and the fourth belongs to
    ["a"]. *)
Lemma C6_Get_locates_owner_witness :
  let c := consistenthash.Register ["a"; "b"]%string (consistenthash.New 3 None) in
  consistenthash.Get "Tom" c = Ret (consistenthash.owner c 2518423360)
  ∧ consistenthash.owner c 2518423360 = "a"%string.
Proof.
  intros c. split; [|vm_compute; reflexivity].
  assert (consistenthash.built c) as Hbuilt by (subst c; repeat constructor).
  apply (proj1 (proj2 (C6_Get_locates_owner c "Tom" Hbuilt)) 3%nat 2518423360).
  - vm_compute. reflexivity.
  - vm_compute. discriminate.
  - intros j y Hj Hy.
    destruct j as [|[|[|j]]]; [| | |lia];
      vm_compute in Hy; injection Hy as <-; vm_compute; reflexivity.
Defined.

(** On the same ring the hash of ["Sam"] is above every entry: the lookup
    wraps around to the first entry, which belongs to ["b"]. *)
Example Get_wraps_around :
  let c := consistenthash.Register ["a"; "b"]%string (consistenthash.New 3 None) in
  (∀ x, x ∈ consistenthash.ring c → x < consistenthash.hashOf c "Sam")
  ∧ consistenthash.Get "Sam" c = Ret "b"%string.
Proof.
  intros c. split; [|vm_compute; reflexivity].
  intros x Hx. apply list_elem_of_lookup_1 in Hx as [j Hj].
  destruct j as [|[|[|[|[|[|j]]]]]];
    vm_compute in Hj; [..|done]; injection Hj as <-; vm_compute; reflexivity.
Qed.

(** ** Ring entries and their owners *)






(** On a ring with entries, [Get] returns the owner of one of them. *)
Lemma Get_owner (key : string) (c : consistenthash.Consistentency) :
  consistenthash.ring c ≠ [] →
  ∃ x, x ∈ consistenthash.ring c
       ∧ consistenthash.Get key c = Ret (consistenthash.owner c x).
Proof.
  intros Hne. unfold consistenthash.Get.
  set (n := Z.of_nat (List.length (consistenthash.ring c))).
  assert (0 < n) as Hn.
  { subst n. destruct (consistenthash.ring c); [done|]. simpl. lia. }
  destruct (Z.eqb_spec n 0) as [|_]; [lia|].
  set (idx := sort.Search n _).
  pose proof (Z.mod_pos_bound idx n Hn) as Hidx.
  destruct (lookup_lt_is_Some_2 (consistenthash.ring c) (Z.to_nat (idx `mod` n)))
    as [x Hx]; [lia|].
  rewrite Hx. exists x. split; [|done]. by eapply list_elem_of_lookup_2.
Qed.

(** ** The peer router of server.go *)

(** [NewServer] never leaves the address empty. *)
Lemma NewServer_addr (ValidPeerAddr : string → bool) (a : string) (s : server) :
  NewServer ValidPeerAddr a = (Some s, None) →
  addr s ≠ ""%string ∧ consHash s = None ∧ clients s = ∅.
Proof.
  unfold NewServer.
  destruct (String.eqb a "") eqn:Ha; destruct (negb (ValidPeerAddr _)); try done.
  - intros [= <-]. done.
  - intros [= <-]. simpl. apply String.eqb_neq in Ha. done.
Qed.

(** C4 (the code answers found=true with no peers configured).  After
    [SetPeers()] with no peer the ring is empty and so is the client map;
    [GetPeer] yields the empty string, which differs from the address of the
    server, and [Pick] returns the nil [*client] read from the empty client
    map together with [true]. *)
Theorem C4_Pick_without_peers_reports_found (ValidPeerAddr : string → bool)
    (a key : string) (s : server) :
  NewServer ValidPeerAddr a = (Some s, None) →
  ∃ (s' : server) (ring : consistenthash.Consistentency),
    SetPeers ValidPeerAddr [] s = Ret s'
    ∧ consHash s' = Some ring
    ∧ consistenthash.ring ring = []
    ∧ clients s' = ∅
    ∧ consistenthash.GetPeer key ring = Ret ""%string
    ∧ Pick key s' = Ret (Some (FetcherClient None), true).
Proof.
  intros Hnew. apply NewServer_addr in Hnew as (Haddr & _ & _).
  do 2 eexists. repeat (split; [reflexivity|]).
  unfold Pick. simpl.
  destruct (addr s) as [|ch rest]; [done|].
  by rewrite lookup_empty.
Qed.

(** The server on the default address, with an address check that accepts
    everything. *)
Lemma C4_Pick_without_peers_reports_found_witness :
  let s := {| addr := defaultAddr; status := false; consHash := None; clients := ∅ |} in
  NewServer (λ _, true) "" = (Some s, None)
  ∧ ∃ (s' : server) (ring : consistenthash.Consistentency),
      SetPeers (λ _, true) [] s = Ret s'
      ∧ consHash s' = Some ring
      ∧ consistenthash.ring ring = []
      ∧ clients s' = ∅
      ∧ consistenthash.GetPeer "Tom" ring = Ret ""%string
      ∧ Pick "Tom" s' = Ret (Some (FetcherClient None), true).
Proof.
  intros s. split; [reflexivity|].
  apply (C4_Pick_without_peers_reports_found (λ _, true) "" "Tom" s).
  reflexivity.
Defined.

(** Before any [SetPeers] the ring pointer is nil and [Pick] panics. *)
Lemma Pick_before_SetPeers (ValidPeerAddr : string → bool) (a key : string) (s : server) :
  NewServer ValidPeerAddr a = (Some s, None) →
  Pick key s = Panic "invalid memory address or nil pointer dereference".
Proof.
  intros Hnew. apply NewServer_addr in Hnew as (_ & Hring & _).
  unfold Pick. by rewrite Hring.
Qed.


Lemma Pick_remote (key peerAddr : string) (s : server)
    (ring : consistenthash.Consistentency) :
  consHash s = Some ring →
  consistenthash.GetPeer key ring = Ret peerAddr →
  peerAddr ≠ addr s →
  Pick key s = Ret (Some (FetcherClient (clients s !! peerAddr)), true).
Proof.
  intros Hring Hpeer Hne. unfold Pick. rewrite Hring, Hpeer. simpl.
  apply String.eqb_neq in Hne. by rewrite Hne.
Qed.



(** ** The request coalescer *)

Lemma table_Some {T : Type} (m : gmap string (singleflight.packet T)) :
  singleflight.table {| singleflight.flight := Some m |} = m.
Proof. reflexivity. Qed.

(** C5: a [Fly] call that finds no record for its key runs [fn] once (the
    invocation count goes from [n] to [n + 1] and the world is the one [fn]
    left), returns the pair [fn] returned, and leaves a table without a record
    for the key; a second [Fly] for the same key then runs its own function
    (the count reaches [n + 2]) and returns that function's pair. *)
Theorem C5_Fly_runs_fn_once_and_forgets (T W : Type) (key : string)
    (fn fn' : W → (option T * option error) * W)
    (f : singleflight.Flight T) (n : nat) (w : W) :
  singleflight.table f !! key = None →
  let f' := {| singleflight.flight := Some (singleflight.table f) |} in
  singleflight.Fly key (singleflight.counted fn) (f, (n, w))
  = Ret ((fn w).1, (f', (S n, (fn w).2)))
  ∧ singleflight.table f' !! key = None
  ∧ singleflight.Fly key (singleflight.counted fn') (f', (S n, (fn w).2))
    = Ret ((fn' (fn w).2).1, (f', (S (S n), (fn' (fn w).2).2))).
Proof.
  intros Hkey f'. subst f'.
  assert (∀ (g : W → (option T * option error) * W) f0 m v,
    singleflight.table f0 = singleflight.table f →
    singleflight.Fly key (singleflight.counted g) (f0, (m, v))
    = Ret ((g v).1, ({| singleflight.flight := Some (singleflight.table f) |},
                     (S m, (g v).2)))) as Hrun.
  { intros g f0 m v Hf0.
    unfold singleflight.Fly, singleflight.counted, singleflight.store. simpl.
    rewrite !table_Some, Hf0, Hkey. simpl.
    destruct (g v) as [[v1 e1] v2]. simpl.
    rewrite !table_Some, insert_insert_eq, delete_insert_id by done.
    reflexivity. }
  split; [by apply Hrun|]. split; [by rewrite table_Some|].
  apply Hrun. by rewrite table_Some.
Qed.

(** The empty coalescer and a function that fails. *)
Lemma C5_Fly_runs_fn_once_and_forgets_witness :
  let fail := λ w : unit, ((None : option ByteView, Some (Errorf "boom")), w) in
  let f := {| singleflight.flight := None |} in
  let f' := {| singleflight.flight := Some (singleflight.table f) |} in
  singleflight.Fly "Tom" (singleflight.counted fail) (f, (0%nat, ()))
  = Ret ((fail ()).1, (f', (1%nat, (fail ()).2)))
  ∧ singleflight.table f' !! "Tom"%string = None
  ∧ singleflight.Fly "Tom" (singleflight.counted fail) (f', (1%nat, (fail ()).2))
    = Ret ((fail (fail ()).2).1, (f', (2%nat, (fail (fail ()).2).2))).
Proof.
  intros fail f f'.
  apply (C5_Fly_runs_fn_once_and_forgets ByteView unit "Tom" fail fail f 0%nat ()).
  reflexivity.
Defined.

(** ** The lookup of a group *)

(** C9: [Get] with the empty key returns the error ["key is required"] for
    every group; the group (its cache, its flight table) is left as it was
    and no call to the peer router, a fetcher or the origin loader is
    recorded. *)
Theorem C9_Get_empty_key (fuel : nat) (s : state) :
  Get fuel "" s = Ret ((ByteView_zero, Some (Errorf "key is required")), s).
Proof. reflexivity. Qed.

Lemma cloneBytes_id (x : bytes) : cloneBytes x = x.
Proof.
  unfold cloneBytes, copy, make.
  rewrite length_replicate, firstn_all, drop_ge, app_nil_r; [done|].
  by rewrite length_replicate.
Qed.

(** A key absent from the index of the LRU is a miss of the cache, which
    stays as it is. *)
Lemma get_miss (key : string) (c : cache) :
  lru.hashmap (lru_ c) !! key = None →
  get key c = Ret ((ByteView_zero, false), c).
Proof.
  intros Hk. unfold get, lru.Get. rewrite Hk. simpl. by destruct c.
Qed.

(** What [Get] does with a key that is neither cached nor in flight. *)
Lemma Get_miss (fuel : nat) (key : string) (g : Group) (tr : trace) :
  key ≠ ""%string →
  lru.hashmap (lru_ (cache_ g)) !! key = None →
  singleflight.table (flight g) !! key = None →
  Get fuel key (g, tr) =
    '(remote, tr1) ← peerBytes (server_ g) (name g) key tr;
    match remote with
    | Some bytes => Ret (({| b := bytes |}, None), (after_load (cache_ g) g, tr1))
    | None =>
        let '(bytes, err) := retrieve (retriever g) key tr1 in
        match err with
        | Some e =>
            Ret ((ByteView_zero, Some e), (after_load (cache_ g) g, tr1 ++ [Retrieved key]))
        | None =>
            c ← add fuel key {| b := cloneBytes bytes |} (cache_ g);
            Ret (({| b := cloneBytes bytes |}, None), (after_load c g, tr1 ++ [Retrieved key]))
        end
    end.
Proof.
  intros Hne Hmiss Hflight. unfold Get.
  apply String.eqb_neq in Hne. rewrite Hne.
  rewrite get_miss by done. simpl.
  unfold load, singleflight.Fly, singleflight.store. simpl.
  rewrite !table_Some, Hflight. simpl.
  unfold loader, fromPeer. simpl.
  destruct (peerBytes (server_ g) (name g) key tr) as [[remote tr1]| | |]; simpl; try done.
  destruct remote as [bs|]; simpl.
  - unfold after_load. simpl.
    rewrite !table_Some, insert_insert_eq, delete_insert_id by done. by destruct g.
  - unfold getLocally. simpl.
    destruct (retrieve (retriever g) key tr1) as [bs [e|]]; simpl.
    + unfold after_load. simpl.
      rewrite !table_Some, insert_insert_eq, delete_insert_id by done. by destruct g.
    + unfold populateCache. simpl.
      destruct (add fuel key _ (cache_ g)) as [c| | |]; simpl; try done.
      unfold after_load. simpl.
      rewrite !table_Some, insert_insert_eq, delete_insert_id by done. by destruct g.
Qed.

(** The three ways in which no peer delivers a value, and the one in which a
    peer does. *)
Lemma peerBytes_no_router (group key : string) (tr : trace) :
  peerBytes None group key tr = Ret (None, tr).
Proof. reflexivity. Qed.

Lemma peerBytes_not_found (pick : string → trace → option Fetcher * bool)
    (group key : string) (tr : trace) :
  (pick key tr).2 = false →
  peerBytes (Some (PickerOther pick)) group key tr = Ret (None, tr ++ [Picked key]).
Proof.
  intros Hpick. unfold peerBytes. simpl.
  destruct (pick key tr) as [fetcher ok]. simpl in *. by subst ok.
Qed.

Lemma peerBytes_fetch_failed (pick : string → trace → option Fetcher * bool)
    (fetch : string → string → trace → bytes * option error)
    (group key : string) (tr : trace) (e : error) :
  pick key tr = (Some (FetcherOther fetch), true) →
  (fetch group key (tr ++ [Picked key])).2 = Some e →
  peerBytes (Some (PickerOther pick)) group key tr
  = Ret (None, tr ++ [Picked key] ++ [Fetched group key]).
Proof.
  intros Hpick Hfetch. unfold peerBytes. simpl. rewrite Hpick. simpl.
  destruct (fetch group key _) as [bs err]. simpl in *. subst err.
  by rewrite <- app_assoc.
Qed.

Lemma peerBytes_fetched (pick : string → trace → option Fetcher * bool)
    (fetch : string → string → trace → bytes * option error)
    (group key : string) (tr : trace) (bs : bytes) :
  pick key tr = (Some (FetcherOther fetch), true) →
  fetch group key (tr ++ [Picked key]) = (bs, None) →
  peerBytes (Some (PickerOther pick)) group key tr
  = Ret (Some bs, tr ++ [Picked key] ++ [Fetched group key]).
Proof.
  intros Hpick Hfetch. unfold peerBytes. simpl. rewrite Hpick. simpl.
  rewrite Hfetch. by rewrite <- app_assoc.
Qed.

(** C7: for a key that is not cached and not in flight, when no peer
    delivers a value and the origin loader answers with the error [e], [Get]
    returns the zero view with that very [e]; the loader was called once, and
    the cache of the group is the one it had before. *)
Theorem C7_loader_error_returned_nothing_cached (fuel : nat) (key : string) (g : Group)
    (tr tr1 : trace) (bs : bytes) (e : error) :
  key ≠ ""%string →
  lru.hashmap (lru_ (cache_ g)) !! key = None →
  singleflight.table (flight g) !! key = None →
  peerBytes (server_ g) (name g) key tr = Ret (None, tr1) →
  retrieve (retriever g) key tr1 = (bs, Some e) →
  ∃ g', Get fuel key (g, tr) = Ret ((ByteView_zero, Some e), (g', tr1 ++ [Retrieved key]))
        ∧ cache_ g' = cache_ g
        ∧ singleflight.table (flight g') = singleflight.table (flight g).
Proof.
  intros Hne Hmiss Hflight Hpeer Hload.
  rewrite Get_miss by done. rewrite Hpeer. simpl. rewrite Hload.
  eexists. split; [reflexivity|]. done.
Qed.

(** Group "scores" behind an unreachable peer, with a loader that fails. *)
Lemma C7_loader_error_returned_nothing_cached_witness :
  let g := group_of "scores" 1024 (broken_origin "no such student") (Some unreachable_peer) in
  ∃ g', Get 0 "Tom" (g, [])
        = Ret ((ByteView_zero, Some (Errorf "no such student")),
               (g', [Picked "Tom"; Fetched "scores" "Tom"] ++ [Retrieved "Tom"]))
        ∧ cache_ g' = cache_ g
        ∧ singleflight.table (flight g') = singleflight.table (flight g).
Proof.
  intros g.
  apply (C7_loader_error_returned_nothing_cached 0 "Tom" g []
           [Picked "Tom"; Fetched "scores" "Tom"] [] (Errorf "no such student"));
    reflexivity || done.
Defined.

(** A value a peer delivered is returned and not cached: the cache of the
    group is the one it had before, in which the key was absent, and the
    origin loader is not called. *)
Lemma Get_peer_value_not_cached (fuel : nat) (key : string) (g : Group)
    (tr tr1 : trace) (bs : bytes) :
  key ≠ ""%string →
  lru.hashmap (lru_ (cache_ g)) !! key = None →
  singleflight.table (flight g) !! key = None →
  peerBytes (server_ g) (name g) key tr = Ret (Some bs, tr1) →
  ∃ g', Get fuel key (g, tr) = Ret (({| b := bs |}, None), (g', tr1))
        ∧ cache_ g' = cache_ g
        ∧ get key (cache_ g') = Ret ((ByteView_zero, false), cache_ g').
Proof.
  intros Hne Hmiss Hflight Hpeer.
  rewrite Get_miss by done. rewrite Hpeer. simpl.
  eexists. split; [reflexivity|]. split; [done|].
  simpl. by apply get_miss.
Qed.

(** When no peer delivers a value and the origin loader succeeds, the loaded
    bytes are returned and, provided the insertion into the LRU returns, can
    be read back from the cache of the group. *)
Lemma Get_loaded_value_cached (fuel : nat) (key : string) (g : Group)
    (tr tr1 : trace) (bs : bytes) (c : cache) :
  key ≠ ""%string →
  lru.hashmap (lru_ (cache_ g)) !! key = None →
  singleflight.table (flight g) !! key = None →
  peerBytes (server_ g) (name g) key tr = Ret (None, tr1) →
  retrieve (retriever g) key tr1 = (bs, None) →
  add fuel key {| b := bs |} (cache_ g) = Ret c →
  ∃ g', Get fuel key (g, tr) = Ret (({| b := bs |}, None), (g', tr1 ++ [Retrieved key]))
        ∧ cache_ g' = c
        ∧ ∃ c', get key c = Ret (({| b := bs |}, true), c').
Proof.
  intros Hne Hmiss Hflight Hpeer Hload Hadd.
  rewrite Get_miss by done. rewrite Hpeer. simpl. rewrite Hload.
  rewrite cloneBytes_id, Hadd. simpl.
  eexists. split; [reflexivity|]. split; [done|].
  unfold add in Hadd.
  destruct (lru.Add fuel key _ (lru_ (cache_ g))) as [l| | |] eqn:Hl; try done.
  simpl in Hadd. injection Hadd as <-.
  apply Add_then_Get in Hl as [l' Hl'].
  unfold get. simpl. rewrite Hl'. simpl. eauto.
Qed.


(** C3 (the code does not get to cache the loaded value).  Group "scores"
    has capacity 4 and a peer router whose peer cannot be reached; the origin
    loader knows ["560"] for ["Tom"].  [Get] asks the peer, which fails, falls
    back to the loader, which succeeds, and then inserts a 6-byte entry into
    the empty LRU of capacity 4: the eviction loop of [Add] spins, so [Get]
    does not return and nothing is ever cached. *)
Theorem C3_loaded_value_too_large_never_cached :
  let g := group_of "scores" 4 (origin "560") (Some unreachable_peer) in
  let tr := [Picked "Tom"; Fetched "scores" "Tom"] in
  peerBytes (server_ g) (name g) "Tom" [] = Ret (None, tr)
  ∧ retrieve (retriever g) "Tom" tr = (list_byte_of_string "560", None)
  ∧ ∀ fuel : nat, Get fuel "Tom" (g, []) = OutOfFuel.
Proof.
  intros g tr. split; [reflexivity|]. split; [reflexivity|].
  intros fuel. subst g. rewrite Get_miss by done. simpl.
  unfold add, newCache. cbn [lru_]. rewrite Add_oversized_spins; [done|lia|].
  vm_compute. split; reflexivity.
Qed.

(** What this does to a lookup: a group whose router is that server takes the
    nil client for a peer, the fetch on it answers with no bytes and no error,
    and [Get] returns the empty view without asking the origin loader. *)
Example Get_through_server_without_peers :
  ∀ (fuel : nat) (s' : server),
    SetPeers (λ _, true) []
      {| addr := defaultAddr; status := false; consHash := None; clients := ∅ |} = Ret s' →
    ∃ g', Get fuel "Tom" (group_of "scores" 1024 (origin "560") (Some (PickerServer s')), [])
          = Ret ((ByteView_zero, None), (g', [Picked "Tom"; Fetched "scores" "Tom"])).
Proof.
  intros fuel s' [= <-]. rewrite Get_miss by done.
  eexists. reflexivity.
Qed.

(** Group "scores" with capacity 1024 and a loader that knows ["560"] for
    ["Tom"]: the first [Get] loads and caches 6 bytes, the second is a hit and
    does not call the loader again. *)
Example Get_then_hit :
  let g := group_of "scores" 1024 (origin "560") None in
  ∃ g1 g2,
    Get 0 "Tom" (g, []) = Ret ((view "560", None), (g1, [Retrieved "Tom"]))
    ∧ lru.length (lru_ (cache_ g1)) = 6
    ∧ Get 0 "Tom" (g1, [Retrieved "Tom"]) = Ret ((view "560", None), (g2, [Retrieved "Tom"])).
Proof.
  intros g. do 2 eexists.
  split; [vm_compute; reflexivity|]. split; vm_compute; reflexivity.
Qed.

(** ** The group directory *)

(** C10: [NewGroup] with a name the directory already holds and a non-nil
    retriever returns normally; the directory then maps the name to the newly
    allocated group (an address that was unused, hence not the one of the
    previous holder), which is what [GetGroup] returns. *)
Theorem C10_NewGroup_replaces_entry (name : string) (maxBytes : Z) (r : Retriever)
    (d : directory) (old : nat) :
  GetGroup name d = Some old →
  ∃ (p : nat) (d' : directory),
    NewGroup name maxBytes (Some r) d = (Ret p, d')
    ∧ GetGroup name d' = Some p
    ∧ heap d !! p = None
    ∧ (is_Some (heap d !! old) → p ≠ old)
    ∧ heap d' !! p = Some {| gocache.name := name;
                             cache_ := newCache maxBytes;
                             retriever := r;
                             server_ := None;
                             flight := {| singleflight.flight := None |} |}.
Proof.
  intros _. unfold NewGroup, GetGroup. do 2 eexists. split; [reflexivity|]. simpl.
  pose proof (is_fresh (dom (heap d))) as Hfresh.
  apply not_elem_of_dom in Hfresh.
  repeat split.
  - by rewrite lookup_insert_eq.
  - done.
  - intros [g Hg] Heq. rewrite Heq in Hfresh. congruence.
  - by rewrite lookup_insert_eq.
Qed.

(** An existing entry for ["scores"], replaced. *)
Lemma C10_NewGroup_replaces_entry_witness :
  let r := {| retrieve := λ _ _, (list_byte_of_string "560", None) |} in
  let g := {| gocache.name := "scores"; cache_ := newCache 1024; retriever := r;
              server_ := None; flight := {| singleflight.flight := None |} |} in
  let d := {| groups := {[ "scores"%string := 0%nat ]}; heap := {[ 0%nat := g ]} |} in
  ∃ (p : nat) (d' : directory),
    NewGroup "scores" 2048 (Some r) d = (Ret p, d')
    ∧ GetGroup "scores" d' = Some p
    ∧ heap d !! p = None
    ∧ (is_Some (heap d !! 0%nat) → p ≠ 0%nat)
    ∧ heap d' !! p = Some {| gocache.name := "scores";
                             cache_ := newCache 2048;
                             retriever := r;
                             server_ := None;
                             flight := {| singleflight.flight := None |} |}.
Proof.
  intros r g d.
  apply (C10_NewGroup_replaces_entry "scores" 2048 r d 0%nat).
  reflexivity.
Defined.

(** With a [*server] attached, [DestoryGroup] stops it and removes the
    entry. *)
Lemma DestoryGroup_with_server (name : string) (d : directory) (g : nat) (grp : Group)
    (srv : server) :
  GetGroup name d = Some g →
  heap d !! g = Some grp →
  server_ grp = Some (PickerServer srv) →
  ∃ d', DestoryGroup name d = (Ret (), d') ∧ GetGroup name d' = None.
Proof.
  intros Hg Hgrp Hsrv. unfold DestoryGroup. rewrite Hg, Hgrp, Hsrv.
  eexists. split; [reflexivity|].
  unfold GetGroup. simpl. by rewrite lookup_delete_eq.
Qed.

(** C8 (the code panics).  A group that [NewGroup] has just registered has no
    peer router; [DestoryGroup] on its name panics at the type assertion on
    the nil interface, before [delete] is reached: the directory is unchanged
    and still holds the name. *)
Theorem C8_DestoryGroup_without_server_panics :
  ∀ (name : string) (maxBytes : Z) (r : Retriever) (d : directory),
    let d' := (NewGroup name maxBytes (Some r) d).2 in
    DestoryGroup name d'
    = (Panic "interface conversion: gocache.Picker is nil, not *gocache.server", d')
    ∧ is_Some (GetGroup name d').
Proof.
  intros name maxBytes r d. simpl.
  unfold DestoryGroup, GetGroup. simpl.
  rewrite !lookup_insert_eq. simpl. eauto.
Qed.

(** * Further properties of the packages *)

(** ** The list and the index of the LRU cache *)

Section index.
Context {V : Type} `{!lru.Lengthable V}.

Lemma elem_at_Some (e : nat) (l : list (lru.Element V)) (x : lru.Element V) :
  lru.elem_at e l = Some x → x ∈ l ∧ lru.ptr x = e.
Proof.
  intros Hx. apply find_some in Hx as [Hin Hptr].
  split; [by apply list_elem_of_In|by apply Nat.eqb_eq].
Qed.

Lemma elem_at_NoDup (l : list (lru.Element V)) (x : lru.Element V) :
  NoDup (lru.ptr <$> l) → x ∈ l → lru.elem_at (lru.ptr x) l = Some x.
Proof.
  induction l as [|y l IH]; intros Hdup Hin; [by apply elem_of_nil in Hin|].
  rewrite fmap_cons in Hdup. apply NoDup_cons in Hdup as [Hy Hdup].
  unfold lru.elem_at. simpl.
  apply elem_of_cons in Hin as [->|Hin].
  - by rewrite Nat.eqb_refl.
  - destruct (Nat.eqb_spec (lru.ptr y) (lru.ptr x)) as [Heq|_].
    + exfalso. apply Hy. rewrite Heq. by apply list_elem_of_fmap_2.
    + by apply IH.
Qed.

Lemma list_Remove_absent (e : nat) (l : list (lru.Element V)) :
  e ∉ lru.ptr <$> l → lru.list_Remove e l = l.
Proof.
  induction l as [|y l IH]; intros He; [done|].
  rewrite fmap_cons in He. apply not_elem_of_cons in He as [Hne He].
  unfold lru.list_Remove in *. simpl.
  destruct (Nat.eqb_spec (lru.ptr y) e) as [Heq|_]; [congruence|].
  simpl. by rewrite IH.
Qed.

(** Moving an element to the front permutes the list. *)
Lemma MoveToFront_Permutation (e : nat) (l : list (lru.Element V)) :
  NoDup (lru.ptr <$> l) → lru.MoveToFront e l ≡ₚ l.
Proof.
  intros Hdup. unfold lru.MoveToFront.
  destruct (lru.elem_at e l) as [x|] eqn:Hx; [|done].
  revert Hdup Hx. induction l as [|y l IH]; intros Hdup Hx; [done|].
  rewrite fmap_cons in Hdup. apply NoDup_cons in Hdup as [Hy Hdup].
  unfold lru.elem_at, lru.list_Remove in *. simpl in *.
  destruct (Nat.eqb_spec (lru.ptr y) e) as [Heq|Hne]; simpl.
  - injection Hx as <-. f_equiv.
    fold (lru.list_Remove e l). rewrite list_Remove_absent; [done|congruence].
  - rewrite Permutation_swap. f_equiv. by apply IH.
Qed.

Lemma set_value_index (e : nat) (v : V) (l : list (lru.Element V)) :
  (λ x, (lru.key (lru.elem_Value x), lru.ptr x)) <$> lru.set_value e v l
  = (λ x, (lru.key (lru.elem_Value x), lru.ptr x)) <$> l.
Proof.
  unfold lru.set_value. induction l as [|y l IH]; [done|].
  simpl. f_equal; [|exact IH].
  by destruct (Nat.eqb (lru.ptr y) e).
Qed.

(** Consistency looks at the list only through the pairs of its index, in
    any order. *)
Lemma consistent_Permutation (c c' : lru.Cache V) :
  lru_index c' ≡ₚ lru_index c →
  lru.hashmap c' = lru.hashmap c →
  lru.alloc c' = lru.alloc c →
  consistent c → consistent c'.
Proof.
  intros Hix Hmap Halloc (Hk & Hp & Hiff & Hlt).
  unfold consistent. rewrite Hix, Hmap, Halloc. repeat split; try done.
  - intros Hin. rewrite Hix. by apply Hiff.
  - intros Hin. rewrite Hix in Hin. by apply Hiff.
  - intros k e Hin. rewrite Hix in Hin. by eapply Hlt.
Qed.

Lemma New_consistent (maxBytes : Z) (cb : option (lru.OnEliminated V)) :
  consistent (lru.New maxBytes cb).
Proof.
  unfold consistent, lru_index. simpl. repeat split; try constructor.
  - intros Hk. by rewrite lookup_empty in Hk.
  - intros Hin. by apply elem_of_nil in Hin.
  - intros k e Hin. by apply elem_of_nil in Hin.
Qed.

(** [Remove] on a consistent cache that ends in [x]. *)
Lemma Remove_last (c : lru.Cache V) (l : list (lru.Element V)) (x : lru.Element V) :
  consistent c →
  lru.doublyLinkedList c = l ++ [x] →
  lru.Remove c
  = {| lru.capacity := lru.capacity c;
       lru.length := int64 (lru.length c - int64 (lru.entry_size x));
       lru.doublyLinkedList := l;
       lru.hashmap := delete (lru.key (lru.elem_Value x)) (lru.hashmap c);
       lru.callback :=
         lru.invoke (lru.key (lru.elem_Value x)) (lru.value (lru.elem_Value x))
           <$> lru.callback c;
       lru.alloc := lru.alloc c |}.
Proof.
  intros (_ & Hp & _) Hl. unfold lru_index in Hp. rewrite Hl in Hp.
  rewrite fmap_app, fmap_app in Hp. apply NoDup_app in Hp as (_ & Hnotin & _).
  unfold lru.Remove, lru.Back. rewrite Hl, last_snoc. simpl.
  rewrite list_Remove_last; [done|].
  intros Hin. apply (Hnotin (lru.ptr x)).
  - rewrite <- list_fmap_compose. exact Hin.
  - simpl. by apply list_elem_of_singleton.
Qed.

Lemma Remove_consistent (c : lru.Cache V) :
  consistent c → consistent (lru.Remove c).
Proof.
  intros Hc.
  destruct (lru.doublyLinkedList c) as [|y l0] eqn:Hl.
  { by rewrite Remove_empty. }
  destruct (exists_last (l := lru.doublyLinkedList c)) as (l & x & Hlx).
  { by rewrite Hl. }
  rewrite (Remove_last c l x Hc Hlx).
  destruct Hc as (Hk & Hp & Hiff & Hlt).
  unfold consistent, lru_index in *. simpl. rewrite Hlx in *.
  rewrite !fmap_app in Hk. rewrite !fmap_app in Hp. simpl in Hk, Hp.
  apply NoDup_app in Hk as (Hk & Hknotin & _).
  apply NoDup_app in Hp as (Hp & _ & _).
  repeat split; try done.
  - intros Hlook. apply lookup_delete_Some in Hlook as [Hne Hlook].
    apply Hiff in Hlook. rewrite fmap_app in Hlook.
    apply elem_of_app in Hlook as [Hin|Hin]; [done|].
    apply list_elem_of_singleton in Hin. congruence.
  - intros Hin. apply lookup_delete_Some. split.
    + intros <-. apply (Hknotin (lru.key (lru.elem_Value x))).
      * by apply (list_elem_of_fmap_2 fst) in Hin.
      * by apply list_elem_of_singleton.
    + apply Hiff. rewrite fmap_app. apply elem_of_app. by left.
  - intros k e Hin. apply (Hlt k). rewrite fmap_app. apply elem_of_app. by left.
Qed.

Lemma evict_consistent (fuel : nat) (kvSize : Z) (c c' : lru.Cache V) :
  consistent c → lru.evict fuel kvSize c = Ret c' → consistent c'.
Proof.
  revert c. induction fuel as [|fuel IH]; intros c Hc; simpl;
    destruct (lru.over kvSize c); try done.
  - by intros [= <-].
  - apply IH. by apply Remove_consistent.
  - by intros [= <-].
Qed.

(** A pointer found in the index of a consistent cache is an element of its
    list. *)
Lemma consistent_elem_at (c : lru.Cache V) (k : string) (e : nat) :
  consistent c →
  lru.hashmap c !! k = Some e →
  ∃ x, lru.elem_at e (lru.doublyLinkedList c) = Some x
       ∧ x ∈ lru.doublyLinkedList c
       ∧ lru.ptr x = e ∧ lru.key (lru.elem_Value x) = k.
Proof.
  intros (_ & Hp & Hiff & _) Hk. apply Hiff in Hk.
  unfold lru_index in *. apply list_elem_of_fmap in Hk as (x & [= -> ->] & Hin).
  exists x. repeat split; try done.
  apply elem_at_NoDup; [|done]. by rewrite <- list_fmap_compose in Hp.
Qed.

Lemma Get_consistent (k : string) (c c' : lru.Cache V) (r : option V * bool) :
  consistent c → lru.Get k c = Ret (r, c') → consistent c'.
Proof.
  intros Hc. unfold lru.Get.
  destruct (lru.hashmap c !! k) as [e|] eqn:Hk; [|intros [= <- <-]; exact Hc].
  destruct (consistent_elem_at c k e Hc Hk) as (x & -> & _).
  intros [= <- <-]. apply (consistent_Permutation c); [|done..].
  unfold lru_index. simpl. f_equiv. apply MoveToFront_Permutation.
  destruct Hc as (_ & Hp & _). unfold lru_index in Hp.
  by rewrite <- list_fmap_compose in Hp.
Qed.

Lemma Add_consistent (fuel : nat) (k : string) (v : V) (c c' : lru.Cache V) :
  consistent c → lru.Add fuel k v c = Ret c' → consistent c'.
Proof.
  intros Hc. unfold lru.Add.
  destruct (lru.evict fuel _ c) as [c1| | |] eqn:Hev; simpl; try done.
  apply evict_consistent in Hev; [|done]. clear Hc c.
  destruct (lru.hashmap c1 !! k) as [e|] eqn:Hk.
  - destruct (consistent_elem_at c1 k e Hev Hk) as (x & -> & _).
    intros [= <-]. apply (consistent_Permutation c1); [|done..].
    unfold lru_index. simpl. rewrite set_value_index. f_equiv.
    apply MoveToFront_Permutation.
    destruct Hev as (_ & Hp & _). unfold lru_index in Hp.
    by rewrite <- list_fmap_compose in Hp.
  - intros [= <-]. destruct Hev as (Hkeys & Hp & Hiff & Hlt).
    unfold consistent, lru_index in *. simpl.
    repeat split.
    + apply NoDup_cons. split; [|done].
      intros Hin. apply list_elem_of_fmap in Hin as ([k' e] & Heq & Hin).
      simpl in Heq. subst k'. apply Hiff in Hin. congruence.
    + apply NoDup_cons. split; [|done].
      intros Hin. apply list_elem_of_fmap in Hin as ([k' e] & Heq & Hin).
      simpl in Heq. subst e. apply Hlt in Hin. lia.
    + intros Hlook. apply lookup_insert_Some in Hlook as [[<- <-]|[Hne Hlook]].
      * by apply elem_of_cons; left.
      * apply elem_of_cons. right. by apply Hiff.
    + intros Hin. apply elem_of_cons in Hin as [[= -> ->]|Hin].
      * by rewrite lookup_insert_eq.
      * rewrite lookup_insert_ne; [by apply Hiff|].
        intros <-. apply Hiff in Hin. congruence.
    + intros k0 e0 Hin. apply elem_of_cons in Hin as [[= -> ->]|Hin]; [lia|].
      apply Hlt in Hin. lia.
Qed.

(** On a consistent cache the pointer faults of [Get] and [Add] cannot
    happen. *)
Lemma evict_no_panic (fuel : nat) (kvSize : Z) (c : lru.Cache V) (msg : string) :
  lru.evict fuel kvSize c ≠ Panic msg.
Proof.
  revert c. induction fuel as [|fuel IH]; intros c; simpl;
    destruct (lru.over kvSize c); first [done|apply IH].
Qed.

Lemma Get_no_panic (k : string) (c : lru.Cache V) (msg : string) :
  consistent c → lru.Get k c ≠ Panic msg.
Proof.
  intros Hc. unfold lru.Get.
  destruct (lru.hashmap c !! k) as [e|] eqn:Hk; [|done].
  destruct (consistent_elem_at c k e Hc Hk) as (x & -> & _). done.
Qed.

Lemma Add_no_panic (fuel : nat) (k : string) (v : V) (c : lru.Cache V) (msg : string) :
  consistent c → lru.Add fuel k v c ≠ Panic msg.
Proof.
  intros Hc. unfold lru.Add.
  destruct (lru.evict fuel _ c) as [c1| | |] eqn:Hev; simpl; try done.
  - apply evict_consistent in Hev; [|done].
    destruct (lru.hashmap c1 !! k) as [e|] eqn:Hk; [|done].
    destruct (consistent_elem_at c1 k e Hev Hk) as (x & -> & _). done.
  - intros [= ->]. by apply evict_no_panic in Hev.
Qed.

(** No script of [Add] and [Get] calls on a consistent cache panics, and the
    cache it leaves is consistent. *)
Lemma run_consistent (fuel : nat) (ops : list (lru.op V)) (c : lru.Cache V) :
  consistent c →
  (∀ msg, lru.run fuel ops c ≠ Panic msg)
  ∧ (∀ c', lru.run fuel ops c = Ret c' → consistent c').
Proof.
  revert c. induction ops as [|[k v|k] ops IH]; intros c Hc; simpl.
  - split; [done|]. by intros c' [= <-].
  - destruct (lru.Add fuel k v c) as [c1|msg| |] eqn:Hadd; simpl; try done.
    + apply IH. by eapply Add_consistent.
    + by apply Add_no_panic in Hadd.
  - destruct (lru.Get k c) as [[r c1]|msg| |] eqn:Hget; simpl; try done.
    + apply IH. by eapply Get_consistent.
    + by apply Get_no_panic in Hget.
Qed.

End index.

(** ** Accounting of the LRU cache *)

Section accounting.
Context {V : Type} `{!lru.Lengthable V}.
Hypothesis Len_nonneg : ∀ v : V, 0 ≤ lru.Len v.


Lemma total_size_nonneg (c : lru.Cache V) : 0 ≤ lru.total_size c.
Proof. apply sizes_nonneg, Len_nonneg. Qed.

(** More iterations than needed change nothing. *)
Lemma evict_fuel_mono (n m : nat) (kvSize : Z) (c c' : lru.Cache V) :
  lru.evict n kvSize c = Ret c' → (n ≤ m)%nat → lru.evict m kvSize c = Ret c'.
Proof.
  revert m c. induction n as [|n IH]; intros m c Hev Hle; simpl in Hev.
  - destruct (lru.over kvSize c) eqn:Hover; [done|].
    injection Hev as <-. by apply evict_fits.
  - destruct (lru.over kvSize c) eqn:Hover.
    + destruct m as [|m]; [lia|]. simpl. rewrite Hover. apply IH; [done|lia].
    + injection Hev as <-. by apply evict_fits.
Qed.

(** The loop keeps the tracked length equal to the sum of the sizes. *)
Lemma evict_tracked (fuel : nat) (kvSize : Z) (c c' : lru.Cache V) :
  consistent c →
  lru.length c = lru.total_size c →
  lru.total_size c < 2 ^ 63 →
  lru.evict fuel kvSize c = Ret c' →
  lru.length c' = lru.total_size c' ∧ lru.total_size c' ≤ lru.total_size c.
Proof.
  revert c. induction fuel as [|fuel IH]; intros c Hc Hlen Hbound; simpl;
    destruct (lru.over kvSize c); try done; try (intros [= <-]; split; [done|lia]).
  intros Hev.
  destruct (lru.doublyLinkedList c) as [|y l0] eqn:Hl.
  { rewrite Remove_empty in Hev by done. by apply IH in Hev. }
  destruct (exists_last (l := lru.doublyLinkedList c)) as (l & x & Hlx).
  { by rewrite Hl. }
  pose proof (Remove_last c l x Hc Hlx) as HR.
  pose proof (entry_size_nonneg Len_nonneg x) as Hx.
  pose proof (sizes_nonneg Len_nonneg l) as Hsum.
  assert (lru.total_size c = lru.total_size (lru.Remove c) + lru.entry_size x) as Htot.
  { rewrite HR. unfold lru.total_size. simpl. by rewrite Hlx, sizes_snoc. }
  assert (lru.total_size (lru.Remove c) = foldr (λ x acc, lru.entry_size x + acc) 0 l)
    as Htot'.
  { rewrite HR. reflexivity. }
  apply IH in Hev.
  - destruct Hev as [Hlen' Hle]. split; [done|lia].
  - by apply Remove_consistent.
  - rewrite HR at 1. simpl.
    rewrite (int64_small (lru.entry_size x)) by lia.
    rewrite int64_small by lia. lia.
  - lia.
Qed.

End accounting.

(** ** What the LRU cache keeps and returns *)

Lemma ByteView_Len_nonneg (v : ByteView) : 0 ≤ lru.Len v.
Proof. unfold lru.Len, ByteView_Len. lia. Qed.

Lemma keys_index {V : Type} (c : lru.Cache V) : lru.keys c = (lru_index c).*1.
Proof. unfold lru.keys, lru_index. by rewrite <- list_fmap_compose. Qed.

Lemma cache_AB_run :
  lru.run 0 [lru.OpAdd "A" (view ""); lru.OpAdd "B" (view "")] (lru.New 10 (Some recorder))
  = Ret cache_AB.
Proof. vm_compute. reflexivity. Qed.

Lemma run_New_consistent {V : Type} `{!lru.Lengthable V} (fuel : nat)
    (ops : list (lru.op V)) (maxBytes : Z) (cb : option (lru.OnEliminated V))
    (c : lru.Cache V) :
  lru.run fuel ops (lru.New maxBytes cb) = Ret c → consistent c.
Proof. apply run_consistent, New_consistent. Qed.

Lemma cache_AB_consistent : consistent cache_AB.
Proof.
  eapply run_consistent; [apply New_consistent|apply cache_AB_run].
Qed.

(** X1: whatever [Add] and [Get] calls are made on a new cache, no call
    faults on a pointer, and in the cache they leave every key is cached
    once, every element has its own address, and [hashmap] maps exactly the
    keys of the list to the addresses of their elements. *)
Theorem X1_lru_list_and_index_agree {V : Type} `{!lru.Lengthable V} (fuel : nat)
    (ops : list (lru.op V)) (maxBytes : Z) (cb : option (lru.OnEliminated V)) :
  (∀ msg, lru.run fuel ops (lru.New maxBytes cb) ≠ Panic msg)
  ∧ (∀ c, lru.run fuel ops (lru.New maxBytes cb) = Ret c → consistent c).
Proof. apply run_consistent, New_consistent. Qed.

(** What [Get] does on a hit. *)
Lemma Get_hit_spec {V : Type} `{!lru.Lengthable V} (c : lru.Cache V)
    (x : lru.Element V) :
  consistent c →
  x ∈ lru.doublyLinkedList c →
  ∃ c', lru.Get (lru.key (lru.elem_Value x)) c
        = Ret ((Some (lru.value (lru.elem_Value x)), true), c')
        ∧ lru.doublyLinkedList c' = x :: lru.list_Remove (lru.ptr x) (lru.doublyLinkedList c)
        ∧ lru.doublyLinkedList c' ≡ₚ lru.doublyLinkedList c
        ∧ lru.hashmap c' = lru.hashmap c
        ∧ lru.length c' = lru.length c
        ∧ lru.capacity c' = lru.capacity c
        ∧ consistent c'.
Proof.
  intros Hc Hin.
  assert (lru.hashmap c !! lru.key (lru.elem_Value x) = Some (lru.ptr x)) as Hk.
  { destruct Hc as (_ & _ & Hiff & _). apply Hiff. unfold lru_index.
    by apply (list_elem_of_fmap_2 (λ x, (lru.key (lru.elem_Value x), lru.ptr x))). }
  assert (NoDup (lru.ptr <$> lru.doublyLinkedList c)) as Hdup.
  { destruct Hc as (_ & Hp & _). unfold lru_index in Hp.
    by rewrite <- list_fmap_compose in Hp. }
  pose proof (elem_at_NoDup _ x Hdup Hin) as Hx.
  pose proof (MoveToFront_Permutation (lru.ptr x) _ Hdup) as Hperm.
  assert (lru.MoveToFront (lru.ptr x) (lru.doublyLinkedList c)
          = x :: lru.list_Remove (lru.ptr x) (lru.doublyLinkedList c)) as Hmtf.
  { unfold lru.MoveToFront. by rewrite Hx. }
  eexists. split; [|split; [|split; [|split; [|split; [|split]]]]].
  - unfold lru.Get. rewrite Hk, Hx. reflexivity.
  - exact Hmtf.
  - exact Hperm.
  - reflexivity.
  - reflexivity.
  - reflexivity.
  - apply (consistent_Permutation c); [|done..].
    unfold lru_index. simpl. by f_equiv.
Qed.

(** X2: [Get] of a cached key returns its value and moves its element to the
    front; the other elements keep their order, nothing is added or dropped,
    and index, tracked length and capacity are untouched. *)
Theorem X2_lru_Get_hit_promotes {V : Type} `{!lru.Lengthable V} (c : lru.Cache V)
    (x : lru.Element V) :
  consistent c →
  x ∈ lru.doublyLinkedList c →
  ∃ c', lru.Get (lru.key (lru.elem_Value x)) c
        = Ret ((Some (lru.value (lru.elem_Value x)), true), c')
        ∧ lru.doublyLinkedList c' = x :: lru.list_Remove (lru.ptr x) (lru.doublyLinkedList c)
        ∧ lru.doublyLinkedList c' ≡ₚ lru.doublyLinkedList c
        ∧ lru.hashmap c' = lru.hashmap c
        ∧ lru.length c' = lru.length c
        ∧ lru.capacity c' = lru.capacity c
        ∧ consistent c'.
Proof. apply Get_hit_spec. Qed.

(** [Get "A"] on the cache that holds ["B"] before ["A"]. *)
Lemma X2_lru_Get_hit_promotes_witness :
  consistent cache_AB
  ∧ ∃ c', lru.Get "A" cache_AB = Ret ((Some (view ""), true), c')
          ∧ lru.keys c' = ["A"; "B"]%string
          ∧ lru.keys cache_AB = ["B"; "A"]%string.
Proof.
  split; [apply cache_AB_consistent|].
  destruct (X2_lru_Get_hit_promotes cache_AB
              {| lru.ptr := 0%nat;
                 lru.elem_Value := {| lru.key := "A"; lru.value := view "" |} |}
              cache_AB_consistent) as (c' & Hget & Hlist & _).
  { unfold cache_AB. simpl. repeat constructor. }
  exists c'. split; [exact Hget|]. split; [|reflexivity].
  unfold lru.keys. rewrite Hlist. reflexivity.
Defined.

(** X3: [Remove] evicts the element at the back of the list, the least
    recently used one: it leaves the list, its key leaves the index, the
    tracked length goes down by its size, and the callback, when there is
    one, is run once, with its key and value.  The rest of the cache is as
    before. *)
Theorem X3_lru_Remove_evicts_oldest {V : Type} `{!lru.Lengthable V} (c : lru.Cache V)
    (l : list (lru.Element V)) (x : lru.Element V) :
  consistent c →
  lru.doublyLinkedList c = l ++ [x] →
  lru.doublyLinkedList (lru.Remove c) = l
  ∧ lru.hashmap (lru.Remove c) = delete (lru.key (lru.elem_Value x)) (lru.hashmap c)
  ∧ lru.Get (lru.key (lru.elem_Value x)) (lru.Remove c) = Ret ((None, false), lru.Remove c)
  ∧ lru.length (lru.Remove c) = int64 (lru.length c - int64 (lru.entry_size x))
  ∧ lru.callback (lru.Remove c)
    = lru.invoke (lru.key (lru.elem_Value x)) (lru.value (lru.elem_Value x))
        <$> lru.callback c
  ∧ lru.capacity (lru.Remove c) = lru.capacity c
  ∧ consistent (lru.Remove c).
Proof.
  intros Hc Hl. pose proof (Remove_consistent c Hc) as Hc'.
  rewrite (Remove_last c l x Hc Hl) in *. simpl.
  split; [reflexivity|]. split; [reflexivity|].
  split; [unfold lru.Get; simpl; by rewrite lookup_delete_eq|].
  split; [reflexivity|]. split; [reflexivity|]. split; [reflexivity|exact Hc'].
Qed.

(** [Remove] on the cache that holds ["B"] before ["A"]: ["A"] goes, and the
    log of the callback holds ["A"] with its value. *)
Lemma X3_lru_Remove_evicts_oldest_witness :
  consistent cache_AB
  ∧ lru.keys cache_AB = ["B"; "A"]%string
  ∧ lru.keys (lru.Remove cache_AB) = ["B"]%string
  ∧ lru.Get "A" (lru.Remove cache_AB) = Ret ((None, false), lru.Remove cache_AB)
  ∧ lru.length (lru.Remove cache_AB) = 1
  ∧ lru.callback (lru.Remove cache_AB)
    = Some {| lru.env_t := list (string * ByteView);
              lru.env := [("A"%string, view "")];
              lru.call := λ k v log, log ++ [(k, v)] |}.
Proof.
  split; [apply cache_AB_consistent|]. split; [reflexivity|].
  destruct (X3_lru_Remove_evicts_oldest cache_AB
              [ {| lru.ptr := 1%nat;
                   lru.elem_Value := {| lru.key := "B"; lru.value := view "" |} |} ]
              {| lru.ptr := 0%nat;
                 lru.elem_Value := {| lru.key := "A"; lru.value := view "" |} |}
              cache_AB_consistent eq_refl)
    as (Hlist & _ & Hget & Hlen & Hcb & _).
  split; [unfold lru.keys; by rewrite Hlist|].
  split; [exact Hget|]. split; [rewrite Hlen; reflexivity|].
  rewrite Hcb. reflexivity.
Defined.

Lemma Add_front {V : Type} `{!lru.Lengthable V} (fuel : nat) (k : string) (v : V)
    (c c' : lru.Cache V) :
  consistent c →
  lru.Add fuel k v c = Ret c' →
  ∃ e rest, lru.doublyLinkedList c'
            = {| lru.ptr := e; lru.elem_Value := {| lru.key := k; lru.value := v |} |}
              :: rest.
Proof.
  intros Hc. unfold lru.Add.
  destruct (lru.evict fuel _ c) as [c1| | |] eqn:Hev; simpl; try done.
  apply evict_consistent in Hev; [|done].
  destruct (lru.hashmap c1 !! k) as [e|] eqn:Hk.
  - destruct (consistent_elem_at c1 k e Hev Hk) as (x & Hx & _ & Hptr & Hkey).
    rewrite Hx. intros [= <-]. simpl. unfold lru.MoveToFront. rewrite Hx. simpl.
    rewrite Hptr, Nat.eqb_refl, Hkey. eauto.
  - intros [= <-]. simpl. eauto.
Qed.

(** X4: a value handed to [Add] is what [Get] returns for the key right
    after, whether the key was cached before or not; the entry is the most
    recently used one, and list and index still agree. *)
Theorem X4_lru_Add_then_Get {V : Type} `{!lru.Lengthable V} (fuel : nat) (k : string)
    (v : V) (c c' : lru.Cache V) :
  consistent c →
  lru.Add fuel k v c = Ret c' →
  head (lru.keys c') = Some k
  ∧ consistent c'
  ∧ ∃ c'', lru.Get k c' = Ret ((Some v, true), c'') ∧ lru.keys c'' = lru.keys c'.
Proof.
  intros Hc Hadd.
  destruct (Add_front fuel k v c c' Hc Hadd) as (e & rest & Hlist).
  pose proof (Add_consistent fuel k v c c' Hc Hadd) as Hc'.
  split; [unfold lru.keys; by rewrite Hlist|]. split; [done|].
  assert (lru.hashmap c' !! k = Some e) as Hk.
  { destruct Hc' as (_ & _ & Hiff & _). apply Hiff. unfold lru_index.
    rewrite Hlist. simpl. by apply elem_of_cons; left. }
  eexists. split.
  - unfold lru.Get. rewrite Hk, Hlist. unfold lru.elem_at. simpl.
    rewrite Nat.eqb_refl. reflexivity.
  - unfold lru.keys. simpl. rewrite Hlist. unfold lru.MoveToFront, lru.elem_at. simpl.
    rewrite Nat.eqb_refl. simpl. f_equal.
    rewrite list_Remove_absent; [done|].
    destruct Hc' as (_ & Hp & _). unfold lru_index in Hp. rewrite Hlist in Hp.
    rewrite <- list_fmap_compose in Hp. simpl in Hp.
    by apply NoDup_cons in Hp as [Hnotin _].
Qed.

(** ["A"] gets a new value in the cache that holds ["B"] before ["A"]. *)
Lemma X4_lru_Add_then_Get_witness :
  consistent cache_AB
  ∧ ∃ c', lru.Add 0 "A" (view "xy") cache_AB = Ret c'
          ∧ head (lru.keys c') = Some "A"%string
          ∧ consistent c'
          ∧ ∃ c'', lru.Get "A" c' = Ret ((Some (view "xy"), true), c'')
                   ∧ lru.keys c'' = lru.keys c'.
Proof.
  split; [apply cache_AB_consistent|].
  eexists. split; [vm_compute; reflexivity|].
  eapply (X4_lru_Add_then_Get 0 "A" (view "xy") cache_AB); [apply cache_AB_consistent|].
  vm_compute. reflexivity.
Defined.

(** X5: with capacity 0 nothing is evicted: [Add] returns whatever number of
    loop iterations it is allowed, and every key cached before is cached
    after. *)
Theorem X5_lru_capacity_zero_never_evicts {V : Type} `{!lru.Lengthable V} (fuel : nat)
    (k : string) (v : V) (c : lru.Cache V) :
  consistent c →
  lru.capacity c = 0 →
  ∃ c', lru.Add fuel k v c = Ret c'
        ∧ lru.capacity c' = 0
        ∧ k ∈ lru.keys c'
        ∧ ∀ k', k' ∈ lru.keys c → k' ∈ lru.keys c'.
Proof.
  intros Hc Hcap.
  assert (lru.evict fuel (int64 (lru.len_entry k v)) c = Ret c) as Hev.
  { apply evict_fits. unfold lru.over. by rewrite Hcap. }
  unfold lru.Add. rewrite Hev. simpl.
  destruct (lru.hashmap c !! k) as [e|] eqn:Hk.
  - destruct (consistent_elem_at c k e Hc Hk) as (x & Hx & _ & Hptr & Hkey).
    rewrite Hx. eexists. split; [reflexivity|]. simpl. split; [done|].
    assert (NoDup (lru.ptr <$> lru.doublyLinkedList c)) as Hdup.
    { destruct Hc as (_ & Hp & _). unfold lru_index in Hp.
      by rewrite <- list_fmap_compose in Hp. }
    assert (∀ k', k' ∈ lru.keys c →
      k' ∈ lru.keys {| lru.capacity := lru.capacity c;
                       lru.length := int64 (lru.length c
                                            + int64 (lru.Len (lru.value (lru.elem_Value x))
                                                     - lru.Len v));
                       lru.doublyLinkedList :=
                         lru.set_value e v (lru.MoveToFront e (lru.doublyLinkedList c));
                       lru.hashmap := lru.hashmap c;
                       lru.callback := lru.callback c;
                       lru.alloc := lru.alloc c |}) as Hkeep.
    { intros k'. rewrite !keys_index. unfold lru_index. simpl.
      rewrite set_value_index. by rewrite (MoveToFront_Permutation e _ Hdup). }
    split; [|done]. apply Hkeep. rewrite <- Hkey.
    unfold lru.keys.
    apply (list_elem_of_fmap_2 (λ x, lru.key (lru.elem_Value x))).
    by apply elem_at_Some in Hx as [Hin _].
  - eexists. split; [reflexivity|]. simpl. split; [done|].
    unfold lru.keys. simpl. split; [by apply elem_of_cons; left|].
    intros k' Hin. by apply elem_of_cons; right.
Qed.

(** A third key in an unbounded cache that holds two. *)
Lemma X5_lru_capacity_zero_never_evicts_witness :
  ∃ c, lru.run 0 [lru.OpAdd "A" (view "aaaa"); lru.OpAdd "B" (view "bbbb")]
                 (lru.New 0 None) = Ret c
       ∧ lru.capacity c = 0
       ∧ ∃ c', lru.Add 0 "C" (view "cccc") c = Ret c'
               ∧ lru.capacity c' = 0
               ∧ "C"%string ∈ lru.keys c'
               ∧ ∀ k', k' ∈ lru.keys c → k' ∈ lru.keys c'.
Proof.
  eexists. split; [vm_compute; reflexivity|]. split; [reflexivity|].
  apply X5_lru_capacity_zero_never_evicts; [|reflexivity].
  apply (run_New_consistent 0 [lru.OpAdd "A" (view "aaaa"); lru.OpAdd "B" (view "bbbb")]
           0 None).
  vm_compute. reflexivity.
Defined.

(** What [Add] of an absent key does to the books. *)
Lemma Add_insert_accounted {V : Type} `{!lru.Lengthable V}
    (fuel : nat) (k : string) (v : V) (c c' : lru.Cache V) :
  (∀ v : V, 0 ≤ lru.Len v) →
  accounted c →
  0 < lru.capacity c < 2 ^ 62 →
  lru.len_entry k v < 2 ^ 62 →
  lru.hashmap c !! k = None →
  lru.Add fuel k v c = Ret c' →
  accounted c' ∧ lru.capacity c' = lru.capacity c ∧ head (lru.keys c') = Some k.
Proof.
  intros Hnonneg (Hc & Hlen & Hle) Hcap Hsize Hk Hadd.
  pose proof (Add_consistent fuel k v c c' Hc Hadd) as Hc'.
  unfold lru.Add in Hadd.
  destruct (lru.evict fuel _ c) as [c1| | |] eqn:Hev; simpl in Hadd; try done.
  destruct (evict_Ret _ _ _ _ Hev) as (Hover & Hcap1 & Habsent).
  destruct (evict_tracked Hnonneg fuel (int64 (lru.len_entry k v)) c c1 Hc Hlen)
    as [Hlen1 Hle1]; [lia|done|].
  rewrite (Habsent k Hk) in Hadd. injection Hadd as <-.
  pose proof (total_size_nonneg Hnonneg c1) as Hpos.
  assert (0 ≤ lru.len_entry k v) as Hs.
  { unfold lru.len_entry, len. pose proof (Hnonneg v). lia. }
  unfold lru.over in Hover. rewrite Hcap1 in Hover.
  apply andb_false_iff in Hover as [Hover|Hover].
  { apply negb_false_iff, Z.eqb_eq in Hover. lia. }
  apply Z.ltb_ge in Hover.
  rewrite (int64_small (lru.len_entry k v)) in Hover by lia.
  rewrite int64_small in Hover by lia.
  unfold accounted. split; [split; [done|]|done].
  match goal with |- lru.length ?r = _ ∧ _ =>
    assert (lru.total_size r = lru.len_entry k v + lru.total_size c1) as Htot
      by reflexivity;
    rewrite Htot
  end.
  cbn [lru.length lru.capacity].
  rewrite (int64_small (lru.len_entry k v)) by lia.
  rewrite int64_small by lia. lia.
Qed.

(** X6: inserting a key that is not cached keeps the books right.  If the
    tracked length was the sum of the entry sizes and within a positive
    capacity, it still is after an [Add] of an absent key that returns:
    entries were evicted until the new one fits.  Sizes are taken below
    2^62, so that no sum wraps. *)
Theorem X6_lru_insert_keeps_size_within_capacity {V : Type} `{!lru.Lengthable V}
    (fuel : nat) (k : string) (v : V) (c c' : lru.Cache V) :
  (∀ v : V, 0 ≤ lru.Len v) →
  accounted c →
  0 < lru.capacity c < 2 ^ 62 →
  lru.len_entry k v < 2 ^ 62 →
  lru.hashmap c !! k = None →
  lru.Add fuel k v c = Ret c' →
  accounted c' ∧ lru.capacity c' = lru.capacity c ∧ head (lru.keys c') = Some k.
Proof. apply Add_insert_accounted. Qed.

(** A third entry of size 5 in a cache of capacity 10 that holds two of size
    5: the oldest is evicted. *)
Lemma X6_lru_insert_keeps_size_within_capacity_witness :
  ∃ c c', lru.run 0 [lru.OpAdd "A" (view "aaaa"); lru.OpAdd "B" (view "bbbb")]
                    (lru.New 10 None) = Ret c
          ∧ accounted c
          ∧ lru.Add 1 "C" (view "cccc") c = Ret c'
          ∧ (accounted c' ∧ lru.capacity c' = lru.capacity c
             ∧ head (lru.keys c') = Some "C"%string)
          ∧ lru.keys c' = ["C"; "B"]%string.
Proof.
  do 2 eexists. split; [vm_compute; reflexivity|].
  match goal with |- accounted ?c ∧ _ =>
    assert (accounted c) as Hacc
  end.
  { split; [|split; [reflexivity|vm_compute; discriminate]].
    apply (run_New_consistent 0 [lru.OpAdd "A" (view "aaaa"); lru.OpAdd "B" (view "bbbb")]
             10 None).
    vm_compute. reflexivity. }
  split; [exact Hacc|]. split; [vm_compute; reflexivity|].
  split; [|reflexivity].
  eapply (X6_lru_insert_keeps_size_within_capacity 1 "C" (view "cccc"));
    [apply ByteView_Len_nonneg|exact Hacc|vm_compute; done|vm_compute; done
    |vm_compute; reflexivity|vm_compute; reflexivity].
Defined.

(** X7: [Add] does return when the books are right and the entry fits the
    capacity: as many loop iterations as there are entries are enough, for a
    key that is cached as for one that is not. *)
Theorem X7_lru_Add_returns_when_entry_fits {V : Type} `{!lru.Lengthable V}
    (fuel : nat) (k : string) (v : V) (c : lru.Cache V) :
  (∀ v : V, 0 ≤ lru.Len v) →
  accounted c →
  lru.capacity c < 2 ^ 62 →
  lru.len_entry k v ≤ lru.capacity c →
  (List.length (lru.doublyLinkedList c) ≤ fuel)%nat →
  ∃ c', lru.Add fuel k v c = Ret c'.
Proof.
  intros Hnonneg (Hc & Hlen & Hle) Hcap Hfit Hfuel.
  pose proof (total_size_nonneg Hnonneg c) as Hpos.
  assert (0 ≤ lru.len_entry k v) as Hs.
  { unfold lru.len_entry, len. pose proof (Hnonneg v). lia. }
  destruct (evict_returns Hnonneg (int64 (lru.len_entry k v)) _ c eq_refl)
    as [c1 Hev].
  - destruct Hc as (_ & Hp & _). unfold lru_index in Hp.
    by rewrite <- list_fmap_compose in Hp.
  - done.
  - rewrite int64_small by lia. lia.
  - right. rewrite int64_small by lia. lia.
  - rewrite int64_small by lia. lia.
  - apply (evict_fuel_mono _ fuel) in Hev; [|done].
    unfold lru.Add. rewrite Hev. simpl.
    apply evict_consistent in Hev; [|done].
    destruct (lru.hashmap c1 !! k) as [e|] eqn:Hk; [|eauto].
    destruct (consistent_elem_at c1 k e Hev Hk) as (x & -> & _). eauto.
Qed.

(** An entry of size 10 in a cache of capacity 10 that holds two of size 5:
    two iterations are enough. *)
Lemma X7_lru_Add_returns_when_entry_fits_witness :
  ∃ c, lru.run 0 [lru.OpAdd "A" (view "aaaa"); lru.OpAdd "B" (view "bbbb")]
                 (lru.New 10 None) = Ret c
       ∧ accounted c
       ∧ lru.len_entry "C" (view "ccccccccc") = 10
       ∧ ∃ c', lru.Add 2 "C" (view "ccccccccc") c = Ret c'.
Proof.
  eexists. split; [vm_compute; reflexivity|].
  match goal with |- accounted ?c ∧ _ =>
    assert (accounted c) as Hacc
  end.
  { split; [|split; [reflexivity|vm_compute; discriminate]].
    apply (run_New_consistent 0 [lru.OpAdd "A" (view "aaaa"); lru.OpAdd "B" (view "bbbb")]
             10 None).
    vm_compute. reflexivity. }
  split; [exact Hacc|]. split; [reflexivity|].
  apply (X7_lru_Add_returns_when_entry_fits 2 "C" (view "ccccccccc"));
    [apply ByteView_Len_nonneg|exact Hacc|vm_compute; done|vm_compute; discriminate
    |vm_compute; lia].
Defined.

(** ** Lookups of a group, beyond the first miss *)


(** The calls [peerBytes] records: none without a router, a pick, or a pick
    and a fetch; bytes only come with a fetch. *)
Lemma peerBytes_trace (p : option Picker) (group key : string) (tr tr1 : trace)
    (r : option bytes) :
  peerBytes p group key tr = Ret (r, tr1) →
  (r = None ∧ (tr1 = tr ∨ tr1 = tr ++ [Picked key]))
  ∨ tr1 = tr ++ [Picked key; Fetched group key].
Proof.
  unfold peerBytes. destruct p as [p|]; [|intros [= <- <-]; left; eauto].
  destruct (Picker_Pick p key tr) as [[[fetcher ok] tr0]| | |] eqn:Hpick;
    simpl; try done.
  assert (tr0 = tr ++ [Picked key]) as ->.
  { unfold Picker_Pick in Hpick. destruct p as [s|pick].
    - destruct (Pick key s); simpl in Hpick; by simplify_eq.
    - by simplify_eq. }
  destruct ok; [|intros [= <- <-]; left; eauto].
  unfold Fetch. destruct fetcher as [[c|fetch]|]; simpl; try done.
  - intros [= <- <-]. right. by rewrite <- app_assoc.
  - destruct (fetch group key _) as [bs [e|]]; intros [= <- <-]; right;
      by rewrite <- app_assoc.
Qed.


Lemma cache_Tom_run :
  lru.run 0 [lru.OpAdd "Tom" (view "560")] (lru.New 1024 None) = Ret cache_Tom.
Proof. vm_compute. reflexivity. Qed.

Lemma cache_Tom_accounted : accounted cache_Tom.
Proof.
  split; [|split; [reflexivity|vm_compute; discriminate]].
  apply (run_New_consistent 0 [lru.OpAdd "Tom" (view "560")] 1024 None), cache_Tom_run.
Qed.

(** X8: [Get] of a group for a key its cache holds returns the cached value
    with a nil error and records no call: neither the peer router, nor a
    fetcher, nor the origin loader is asked, and the flight table is not
    touched.  The cache holds the same keys, the one asked for first. *)
Theorem X8_Get_hit_asks_nobody (fuel : nat) (key : string) (g : Group) (tr : trace)
    (x : lru.Element ByteView) :
  key ≠ ""%string →
  consistent (lru_ (cache_ g)) →
  x ∈ lru.doublyLinkedList (lru_ (cache_ g)) →
  lru.key (lru.elem_Value x) = key →
  ∃ g', Get fuel key (g, tr) = Ret ((lru.value (lru.elem_Value x), None), (g', tr))
        ∧ flight g' = flight g
        ∧ server_ g' = server_ g
        ∧ lru.keys (lru_ (cache_ g')) ≡ₚ lru.keys (lru_ (cache_ g))
        ∧ head (lru.keys (lru_ (cache_ g'))) = Some key.
Proof.
  intros Hne Hc Hin Hkey.
  destruct (Get_hit_spec (lru_ (cache_ g)) x Hc Hin)
    as (c' & Hget & Hlist & Hperm & _).
  rewrite Hkey in Hget.
  unfold Get. apply String.eqb_neq in Hne. rewrite Hne.
  unfold get. simpl. rewrite Hget. simpl.
  eexists. split; [reflexivity|]. simpl.
  split; [done|]. split; [done|]. split.
  - unfold lru.keys. by rewrite Hperm.
  - unfold lru.keys. rewrite Hlist. simpl. by rewrite Hkey.
Qed.

(** ["Tom"] in group "scores", behind a peer and with a loader that are not
    asked. *)
Lemma X8_Get_hit_asks_nobody_witness :
  consistent cache_Tom
  ∧ ∃ g', Get 0 "Tom" (scores_with_Tom (broken_origin "down") (Some unreachable_peer), [])
          = Ret ((view "560", None), (g', []))
          ∧ flight g' = {| singleflight.flight := Some ∅ |}
          ∧ server_ g' = Some unreachable_peer
          ∧ lru.keys (lru_ (cache_ g')) ≡ₚ ["Tom"%string]
          ∧ head (lru.keys (lru_ (cache_ g'))) = Some "Tom"%string.
Proof.
  split; [apply cache_Tom_accounted|].
  apply (X8_Get_hit_asks_nobody 0 "Tom"
           (scores_with_Tom (broken_origin "down") (Some unreachable_peer)) []
           {| lru.ptr := 0%nat;
              lru.elem_Value := {| lru.key := "Tom"; lru.value := view "560" |} |}).
  - discriminate.
  - apply cache_Tom_accounted.
  - simpl. repeat constructor.
  - reflexivity.
Defined.

(** X9: a value that [Get] had to load is served from the cache afterwards.
    When no peer delivers a value, the loader returns bytes and the insertion
    returns, [Get] returns those bytes after one call of the loader; the next
    [Get] of the key returns the same bytes and records no further call. *)
Theorem X9_Get_loads_once_then_hits (fuel : nat) (key : string) (g : Group)
    (tr tr1 : trace) (bs : bytes) (c : cache) :
  key ≠ ""%string →
  lru.hashmap (lru_ (cache_ g)) !! key = None →
  singleflight.table (flight g) !! key = None →
  peerBytes (server_ g) (name g) key tr = Ret (None, tr1) →
  retrieve (retriever g) key tr1 = (bs, None) →
  add fuel key {| b := bs |} (cache_ g) = Ret c →
  ∃ g1, Get fuel key (g, tr) = Ret (({| b := bs |}, None), (g1, tr1 ++ [Retrieved key]))
        ∧ ∀ fuel', ∃ g2,
            Get fuel' key (g1, tr1 ++ [Retrieved key])
            = Ret (({| b := bs |}, None), (g2, tr1 ++ [Retrieved key])).
Proof.
  intros Hne Hmiss Hflight Hpeer Hload Hadd.
  destruct (Get_loaded_value_cached fuel key g tr tr1 bs c Hne Hmiss Hflight Hpeer Hload Hadd)
    as (g1 & Hget & Hcache & c' & Hhit).
  exists g1. split; [exact Hget|]. intros fuel'.
  unfold Get. apply String.eqb_neq in Hne. rewrite Hne. simpl.
  rewrite Hcache, Hhit. simpl. eauto.
Qed.

(** ["Tom"] in a new group "scores" of capacity 1024 whose loader knows
    ["560"]. *)
Lemma X9_Get_loads_once_then_hits_witness :
  ∃ c, add 0 "Tom" (view "560") (newCache 1024) = Ret c
       ∧ ∃ g1, Get 0 "Tom" (group_of "scores" 1024 (origin "560") None, [])
               = Ret ((view "560", None), (g1, [] ++ [Retrieved "Tom"]))
               ∧ ∀ fuel', ∃ g2,
                   Get fuel' "Tom" (g1, [] ++ [Retrieved "Tom"])
                   = Ret ((view "560", None), (g2, [] ++ [Retrieved "Tom"])).
Proof.
  eexists. split; [vm_compute; reflexivity|].
  eapply (X9_Get_loads_once_then_hits 0 "Tom" (group_of "scores" 1024 (origin "560") None)
            [] [] (list_byte_of_string "560"));
    [discriminate|reflexivity|reflexivity|reflexivity|reflexivity|].
  vm_compute. reflexivity.
Defined.

(** X10: a value that a peer delivered is returned as it came and is not
    cached: the cache of the group is the one it had, the router was asked
    once, the fetcher once, and the origin loader not at all. *)
Theorem X10_Get_peer_value_is_not_cached (fuel : nat) (key : string) (g : Group)
    (tr tr1 : trace) (bs : bytes) :
  key ≠ ""%string →
  lru.hashmap (lru_ (cache_ g)) !! key = None →
  singleflight.table (flight g) !! key = None →
  peerBytes (server_ g) (name g) key tr = Ret (Some bs, tr1) →
  ∃ g', Get fuel key (g, tr)
        = Ret (({| b := bs |}, None), (g', tr ++ [Picked key; Fetched (name g) key]))
        ∧ cache_ g' = cache_ g
        ∧ get key (cache_ g') = Ret ((ByteView_zero, false), cache_ g').
Proof.
  intros Hne Hmiss Hflight Hpeer.
  destruct (peerBytes_trace _ _ _ _ _ _ Hpeer) as [[? _]|Htr]; [done|].
  rewrite <- Htr. by apply Get_peer_value_not_cached.
Qed.

(** ["Tom"] in a new group "scores" behind a peer that answers ["590"]. *)
Lemma X10_Get_peer_value_is_not_cached_witness :
  let g := group_of "scores" 1024 (origin "560") (Some (reachable_peer "590")) in
  peerBytes (server_ g) (name g) "Tom" []
  = Ret (Some (list_byte_of_string "590"), [Picked "Tom"; Fetched "scores" "Tom"])
  ∧ ∃ g', Get 0 "Tom" (g, [])
          = Ret ((view "590", None), (g', [] ++ [Picked "Tom"; Fetched (name g) "Tom"]))
          ∧ cache_ g' = cache_ g
          ∧ get "Tom" (cache_ g') = Ret ((ByteView_zero, false), cache_ g').
Proof.
  intros g. split; [reflexivity|].
  apply (X10_Get_peer_value_is_not_cached 0 "Tom" g []
           [Picked "Tom"; Fetched "scores" "Tom"] (list_byte_of_string "590"));
    [discriminate|reflexivity|reflexivity|reflexivity].
Defined.



(** ** Growing the consistent-hash ring *)

Lemma grown_refl (peersName : list string) (c : consistenthash.Consistentency) :
  grown peersName [] c c.
Proof.
  unfold grown. rewrite app_nil_r.
  split; [done|]. split; [done|]. split; [done|]. split; [|done].
  intros x Hx. by apply elem_of_nil in Hx.
Qed.

Lemma grown_trans (peersName : list string) (news1 news2 : list Z)
    (c c' c'' : consistenthash.Consistentency) :
  grown peersName news1 c c' → grown peersName news2 c' c'' →
  grown peersName (news1 ++ news2) c c''.
Proof.
  intros (Hh1 & Hr1 & Hring1 & Hnew1 & Hold1) (Hh2 & Hr2 & Hring2 & Hnew2 & Hold2).
  unfold grown. rewrite Hh2, Hr2, Hring2, Hring1, app_assoc.
  split; [done|]. split; [done|]. split; [done|]. split.
  - intros x Hx. destruct (decide (x ∈ news2)) as [Hin2|Hnot2]; [by apply Hnew2|].
    apply elem_of_app in Hx as [Hx|Hx]; [|done].
    rewrite (Hold2 x Hnot2). by apply Hnew1.
  - intros x Hx. apply not_elem_of_app in Hx as [Hx1 Hx2].
    by rewrite (Hold2 x Hx2), (Hold1 x Hx1).
Qed.

Lemma add_virtual_grown (peersName : list string) (peerName : string)
    (c : consistenthash.Consistentency) (i : Z) :
  peerName ∈ peersName →
  ∃ hv, grown peersName [hv] c (consistenthash.add_virtual peerName c i).
Proof.
  intros Hp. eexists. unfold grown, consistenthash.add_virtual. simpl.
  split; [done|]. split; [done|]. split; [reflexivity|]. split.
  - intros x Hx. apply list_elem_of_singleton in Hx as ->. split.
    + unfold consistenthash.hashOf, uint32. apply Z.mod_pos_bound. lia.
    + exists peerName. by rewrite lookup_insert_eq.
  - intros x Hx. rewrite lookup_insert_ne; [done|].
    intros <-. apply Hx. by apply list_elem_of_singleton.
Qed.

Lemma add_peer_grown (peersName : list string) (peerName : string)
    (c : consistenthash.Consistentency) :
  peerName ∈ peersName →
  ∃ news, grown peersName news c (consistenthash.add_peer c peerName)
          ∧ List.length news = Z.to_nat (consistenthash.replicas c).
Proof.
  intros Hp. unfold consistenthash.add_peer.
  assert (∀ (l : list Z) c0, ∃ news,
    grown peersName news c0 (foldl (consistenthash.add_virtual peerName) c0 l)
    ∧ List.length news = List.length l) as Hfold.
  { induction l as [|i l IH]; intros c0; simpl.
    - exists []. split; [apply grown_refl|done].
    - destruct (add_virtual_grown peersName peerName c0 i Hp) as [hv Hhv].
      destruct (IH (consistenthash.add_virtual peerName c0 i)) as (news & Hnews & Hlen).
      exists ([hv] ++ news). split; [by eapply grown_trans|]. simpl. by rewrite Hlen. }
  destruct (Hfold (seqZ 0 (consistenthash.replicas c)) c) as (news & Hg & Hlen).
  exists news. split; [done|]. by rewrite Hlen, length_seqZ.
Qed.

Lemma foldl_add_peer_grown (members peersName : list string)
    (c : consistenthash.Consistentency) :
  peersName ⊆ members →
  ∃ news, grown members news c (foldl consistenthash.add_peer c peersName)
          ∧ List.length news
            = (Z.to_nat (consistenthash.replicas c) * List.length peersName)%nat.
Proof.
  revert c. induction peersName as [|q l IH]; intros c Hsub; simpl.
  - exists []. split; [apply grown_refl|by rewrite Nat.mul_0_r].
  - destruct (add_peer_grown members q c) as (news1 & Hg1 & Hlen1); [set_solver|].
    destruct (IH (consistenthash.add_peer c q)) as (news2 & Hg2 & Hlen2); [set_solver|].
    exists (news1 ++ news2). split; [by eapply grown_trans|].
    rewrite length_app, Hlen1, Hlen2.
    destruct Hg1 as (_ & -> & _). simpl. rewrite Nat.mul_succ_r. lia.
Qed.

(** [Register] appends [replicas] hashes per member, then sorts. *)
Lemma Register_grown (peersName : list string) (c : consistenthash.Consistentency) :
  ∃ news,
    List.length news
    = (Z.to_nat (consistenthash.replicas c) * List.length peersName)%nat
    ∧ consistenthash.ring (consistenthash.Register peersName c)
      = sort.Ints (consistenthash.ring c ++ news)
    ∧ consistenthash.hash (consistenthash.Register peersName c) = consistenthash.hash c
    ∧ consistenthash.replicas (consistenthash.Register peersName c)
      = consistenthash.replicas c
    ∧ (∀ x, x ∈ news →
         0 ≤ x < 2 ^ 32
         ∧ ∃ q, q ∈ peersName
                ∧ consistenthash.hashMap (consistenthash.Register peersName c) !! x
                  = Some q)
    ∧ (∀ x, x ∉ news →
         consistenthash.hashMap (consistenthash.Register peersName c) !! x
         = consistenthash.hashMap c !! x).
Proof.
  destruct (foldl_add_peer_grown peersName peersName c) as (news & Hg & Hlen); [done|].
  destruct Hg as (Hh & Hr & Hring & Hnew & Hold).
  exists news. unfold consistenthash.Register. simpl. rewrite Hring. done.
Qed.

(** X12: [Register] adds [replicas] virtual nodes for every name it is given,
    also for a name the ring already has: registering the same members again
    doubles their nodes.  Hash function and replica count stay. *)
Theorem X12_Register_adds_replicas_per_member (peersName : list string)
    (c : consistenthash.Consistentency) :
  List.length (consistenthash.ring (consistenthash.Register peersName c))
  = (List.length (consistenthash.ring c)
     + Z.to_nat (consistenthash.replicas c) * List.length peersName)%nat
  ∧ List.length (consistenthash.ring
                   (consistenthash.Register peersName
                      (consistenthash.Register peersName c)))
    = (List.length (consistenthash.ring c)
       + 2 * (Z.to_nat (consistenthash.replicas c) * List.length peersName))%nat
  ∧ consistenthash.replicas (consistenthash.Register peersName c)
    = consistenthash.replicas c
  ∧ consistenthash.hash (consistenthash.Register peersName c) = consistenthash.hash c.
Proof.
  assert (∀ c0, List.length (consistenthash.ring (consistenthash.Register peersName c0))
                = (List.length (consistenthash.ring c0)
                   + Z.to_nat (consistenthash.replicas c0) * List.length peersName)%nat
                ∧ consistenthash.replicas (consistenthash.Register peersName c0)
                  = consistenthash.replicas c0
                ∧ consistenthash.hash (consistenthash.Register peersName c0)
                  = consistenthash.hash c0) as Hone.
  { intros c0. destruct (Register_grown peersName c0) as (news & Hlen & -> & -> & -> & _).
    unfold sort.Ints. rewrite merge_sort_Permutation, length_app, Hlen. done. }
  destruct (Hone c) as (Hlen & Hr & Hh).
  destruct (Hone (consistenthash.Register peersName c)) as (Hlen2 & _).
  rewrite Hlen2, Hlen, Hr. repeat split; try done. lia.
Qed.

(** A predicate that, once true, stays true has a first index at which it is
    true. *)
Lemma monotone_boundary (f : Z → bool) (n : nat) :
  (∀ x y, 0 ≤ x ≤ y → y < Z.of_nat n → f x = true → f y = true) →
  ∃ k, 0 ≤ k ≤ Z.of_nat n
       ∧ (∀ x, 0 ≤ x < k → f x = false)
       ∧ (∀ x, k ≤ x < Z.of_nat n → f x = true).
Proof.
  induction n as [|n IH]; intros Hmono.
  - exists 0. split; [lia|]. split; intros; lia.
  - destruct IH as (k & Hk & Hlo & Hhi).
    { intros x y Hxy Hy. apply Hmono; lia. }
    destruct (decide (k < Z.of_nat n)) as [Hlt|Hge].
    + exists k. split; [lia|]. split; [done|].
      intros x Hx. apply (Hmono k x); [lia..|]. apply Hhi. lia.
    + assert (k = Z.of_nat n) as -> by lia.
      destruct (f (Z.of_nat n)) eqn:Hn.
      * exists (Z.of_nat n). split; [lia|]. split; [done|].
        intros x Hx. by assert (x = Z.of_nat n) as -> by lia.
      * exists (Z.of_nat (S n)). split; [lia|]. split; [|intros; lia].
        intros x Hx. destruct (decide (x = Z.of_nat n)) as [->|]; [done|].
        apply Hlo. lia.
Qed.

(** On a sorted ring [Get] returns the owner of the least entry that is at
    least the hash of the key, and of the least entry of all when there is
    none. *)
Lemma Get_successor (key : string) (c : consistenthash.Consistentency) :
  StronglySorted Z.le (consistenthash.ring c) →
  consistenthash.ring c ≠ [] →
  ∃ x, x ∈ consistenthash.ring c
       ∧ consistenthash.Get key c = Ret (consistenthash.owner c x)
       ∧ ((consistenthash.hashOf c key ≤ x
           ∧ ∀ y, y ∈ consistenthash.ring c → consistenthash.hashOf c key ≤ y → x ≤ y)
          ∨ ((∀ y, y ∈ consistenthash.ring c → y < consistenthash.hashOf c key)
             ∧ ∀ y, y ∈ consistenthash.ring c → x ≤ y)).
Proof.
  intros Hs Hne. unfold consistenthash.Get.
  set (h := consistenthash.hashOf c key).
  set (l := consistenthash.ring c) in *.
  set (n := Z.of_nat (List.length l)).
  assert (0 < n) as Hn.
  { subst n. destruct l; [done|]. simpl. lia. }
  destruct (Z.eqb_spec n 0) as [|_]; [lia|].
  destruct (monotone_boundary (consistenthash.ge_at c h) (List.length l))
    as (k & Hk & Hlo & Hhi).
  { intros x y Hxy Hy. unfold consistenthash.ge_at. fold l.
    destruct (lookup_lt_is_Some_2 l (Z.to_nat x)) as [a Ha]; [lia|].
    destruct (lookup_lt_is_Some_2 l (Z.to_nat y)) as [b Hb]; [lia|].
    rewrite Ha, Hb. intros Hle%Z.leb_le. apply Z.leb_le.
    pose proof (StronglySorted_lookup l _ _ a b Hs Ha Hb). lia. }
  rewrite (Search_spec n _ k Hk Hlo Hhi).
  assert (∀ y, y ∈ l → ∃ j, 0 ≤ j < n ∧ l !! Z.to_nat j = Some y) as Hidx.
  { intros y [j Hj]%list_elem_of_lookup_1. exists (Z.of_nat j).
    apply lookup_lt_Some in Hj as Hlt. rewrite Nat2Z.id. split; [lia|done]. }
  destruct (decide (k < n)) as [Hlt|Hge].
  - rewrite Z.mod_small by lia.
    destruct (lookup_lt_is_Some_2 l (Z.to_nat k)) as [x Hx]; [lia|].
    rewrite Hx. exists x. split; [by eapply list_elem_of_lookup_2|]. split; [done|].
    left. pose proof (Hhi k ltac:(lia)) as Hge. unfold consistenthash.ge_at in Hge.
    fold l in Hge. rewrite Hx in Hge. apply Z.leb_le in Hge. split; [done|].
    intros y Hy Hhy. destruct (Hidx y Hy) as (j & Hj & Hjy).
    destruct (decide (j < k)) as [Hjk|Hjk].
    + pose proof (Hlo j ltac:(lia)) as Hf. unfold consistenthash.ge_at in Hf.
      fold l in Hf. rewrite Hjy in Hf. apply Z.leb_gt in Hf. lia.
    + apply (StronglySorted_lookup l (Z.to_nat k) (Z.to_nat j) x y Hs Hx Hjy). lia.
  - assert (k = n) as -> by lia. rewrite Z.mod_same by lia.
    destruct (lookup_lt_is_Some_2 l (Z.to_nat 0)) as [x Hx]; [lia|].
    rewrite Hx. exists x. split; [by eapply list_elem_of_lookup_2|]. split; [done|].
    right. split.
    + intros y Hy. destruct (Hidx y Hy) as (j & Hj & Hjy).
      pose proof (Hlo j ltac:(lia)) as Hf. unfold consistenthash.ge_at in Hf.
      fold l in Hf. rewrite Hjy in Hf. apply Z.leb_gt in Hf. lia.
    + intros y Hy. destruct (Hidx y Hy) as (j & Hj & Hjy).
      apply (StronglySorted_lookup l (Z.to_nat 0) (Z.to_nat j) x y Hs Hx Hjy). lia.
Qed.

(** Sorting does not depend on the order of the input. *)
Lemma Ints_Permutation (l1 l2 : list Z) : l1 ≡ₚ l2 → sort.Ints l1 = sort.Ints l2.
Proof.
  intros Hp. unfold sort.Ints.
  apply (StronglySorted_unique Z.le);
    [apply StronglySorted_merge_sort; apply _..|].
  by rewrite !merge_sort_Permutation.
Qed.

Lemma Ints_sorted (l : list Z) : StronglySorted Z.le l → sort.Ints l = l.
Proof.
  intros Hs. unfold sort.Ints.
  apply (StronglySorted_unique Z.le);
    [apply StronglySorted_merge_sort; apply _|done|].
  apply merge_sort_Permutation.
Qed.

(** *** Rings made by [New] and [Register] *)

Lemma registered_sorted (members : list string) (c : consistenthash.Consistentency) :
  registered members c → StronglySorted Z.le (consistenthash.ring c).
Proof.
  intros [replicas fn|ms peersName c0 _]; simpl.
  - constructor.
  - unfold sort.Ints. apply StronglySorted_merge_sort; apply _.
Qed.

Lemma registered_owned (members : list string) (c : consistenthash.Consistentency) :
  registered members c →
  ∀ x, x ∈ consistenthash.ring c →
       0 ≤ x < 2 ^ 32
       ∧ ∃ p, p ∈ members ∧ consistenthash.hashMap c !! x = Some p.
Proof.
  induction 1 as [replicas fn|ms peersName c Hreg IH]; intros x Hx.
  - by apply elem_of_nil in Hx.
  - destruct (Register_grown peersName c) as (news & _ & Hring & _ & _ & Hnew & Hold).
    rewrite Hring in Hx. unfold sort.Ints in Hx. rewrite merge_sort_Permutation in Hx.
    destruct (decide (x ∈ news)) as [Hin|Hnot].
    + destruct (Hnew x Hin) as (Hrange & q & Hq & Hown).
      split; [done|]. exists q. split; [|done]. apply elem_of_app. by right.
    + apply elem_of_app in Hx as [Hx|Hx]; [|done].
      destruct (IH x Hx) as (Hrange & p & Hp & Hown).
      split; [done|]. exists p. split; [apply elem_of_app; by left|].
      by rewrite (Hold x Hnot).
Qed.

Lemma registered_length (members : list string) (c : consistenthash.Consistentency) :
  registered members c →
  List.length (consistenthash.ring c)
  = (Z.to_nat (consistenthash.replicas c) * List.length members)%nat.
Proof.
  induction 1 as [replicas fn|ms peersName c Hreg IH].
  - simpl. by rewrite Nat.mul_0_r.
  - destruct (Register_grown peersName c) as (news & Hlen & -> & _ & -> & _).
    unfold sort.Ints. rewrite merge_sort_Permutation, !length_app, Hlen, IH. lia.
Qed.

(** X13: a ring made by [New] and grown by [Register] is in increasing
    order, has [replicas] entries per name it was given, and each entry is a
    [uint32] that the map of owners assigns to one of those names. *)
Theorem X13_ring_sorted_entries_owned (members : list string)
    (c : consistenthash.Consistentency) :
  registered members c →
  StronglySorted Z.le (consistenthash.ring c)
  ∧ List.length (consistenthash.ring c)
    = (Z.to_nat (consistenthash.replicas c) * List.length members)%nat
  ∧ ∀ x, x ∈ consistenthash.ring c →
         0 ≤ x < 2 ^ 32
         ∧ ∃ p, p ∈ members ∧ consistenthash.hashMap c !! x = Some p.
Proof.
  intros Hreg. split; [by eapply registered_sorted|].
  split; [by apply registered_length|]. by apply registered_owned.
Qed.

(** The ring of members ["a"] and ["b"] with three replicas each. *)
Lemma X13_ring_sorted_entries_owned_witness :
  let c := consistenthash.Register ["a"; "b"]%string (consistenthash.New 3 None) in
  registered ["a"; "b"]%string c
  ∧ StronglySorted Z.le (consistenthash.ring c)
  ∧ List.length (consistenthash.ring c)
    = (Z.to_nat (consistenthash.replicas c) * List.length ["a"; "b"]%string)%nat
  ∧ ∀ x, x ∈ consistenthash.ring c →
         0 ≤ x < 2 ^ 32
         ∧ ∃ p, p ∈ ["a"; "b"]%string ∧ consistenthash.hashMap c !! x = Some p.
Proof.
  intros c.
  assert (registered ["a"; "b"]%string c) as Hreg.
  { apply (registered_Register [] ["a"; "b"]%string (consistenthash.New 3 None)).
    apply registered_New. }
  split; [exact Hreg|].
  exact (X13_ring_sorted_entries_owned ["a"; "b"]%string c Hreg).
Defined.

(** X14: on such a ring [Get] never panics.  With a positive replica
    count and at least one name registered it returns one of the registered
    names, for every key; otherwise the ring is empty and it returns the
    empty string. *)
Theorem X14_ring_Get_returns_a_member (members : list string)
    (c : consistenthash.Consistentency) (key : string) :
  registered members c →
  (0 < consistenthash.replicas c → members ≠ [] →
   ∃ p, p ∈ members ∧ consistenthash.Get key c = Ret p)
  ∧ (consistenthash.replicas c ≤ 0 ∨ members = [] →
     consistenthash.Get key c = Ret ""%string).
Proof.
  intros Hreg. pose proof (registered_length members c Hreg) as Hlen. split.
  - intros Hr Hms. destruct (Get_owner key c) as (x & Hx & ->).
    { intros Hnil. rewrite Hnil in Hlen. simpl in Hlen.
      destruct members; [done|]. simpl in Hlen. lia. }
    destruct (registered_owned members c Hreg x Hx) as (_ & p & Hp & Hown).
    exists p. split; [done|]. unfold consistenthash.owner. by rewrite Hown.
  - intros Hno. unfold consistenthash.Get.
    assert (List.length (consistenthash.ring c) = 0%nat) as ->; [|done].
    rewrite Hlen. destruct Hno as [Hr| ->]; [|simpl; lia].
    replace (Z.to_nat (consistenthash.replicas c)) with 0%nat by lia. done.
Qed.

(** Key ["Tom"] on the ring of ["a"] and ["b"]. *)
Lemma X14_ring_Get_returns_a_member_witness :
  let c := consistenthash.Register ["a"; "b"]%string (consistenthash.New 3 None) in
  registered ["a"; "b"]%string c
  ∧ ∃ p, p ∈ ["a"; "b"]%string ∧ consistenthash.Get "Tom" c = Ret p.
Proof.
  intros c.
  assert (registered ["a"; "b"]%string c) as Hreg.
  { apply (registered_Register [] ["a"; "b"]%string (consistenthash.New 3 None)).
    apply registered_New. }
  split; [exact Hreg|].
  apply (proj1 (X14_ring_Get_returns_a_member ["a"; "b"]%string c "Tom" Hreg)).
  - vm_compute. reflexivity.
  - discriminate.
Defined.

(** The nodes [Register] appends do not depend on the order of the ring. *)
Lemma add_virtual_ring_Permutation (peerName : string)
    (c1 c2 : consistenthash.Consistentency) (i : Z) :
  consistenthash.hash c1 = consistenthash.hash c2 →
  consistenthash.replicas c1 = consistenthash.replicas c2 →
  consistenthash.hashMap c1 = consistenthash.hashMap c2 →
  consistenthash.ring c1 ≡ₚ consistenthash.ring c2 →
  let c1' := consistenthash.add_virtual peerName c1 i in
  let c2' := consistenthash.add_virtual peerName c2 i in
  consistenthash.hash c1' = consistenthash.hash c2'
  ∧ consistenthash.replicas c1' = consistenthash.replicas c2'
  ∧ consistenthash.hashMap c1' = consistenthash.hashMap c2'
  ∧ consistenthash.ring c1' ≡ₚ consistenthash.ring c2'.
Proof.
  intros Hh Hr Hm Hp. unfold consistenthash.add_virtual, consistenthash.hashOf. simpl.
  rewrite Hh, Hm, Hp. done.
Qed.

Lemma foldl_add_peer_ring_Permutation (peersName : list string)
    (c1 c2 : consistenthash.Consistentency) :
  consistenthash.hash c1 = consistenthash.hash c2 →
  consistenthash.replicas c1 = consistenthash.replicas c2 →
  consistenthash.hashMap c1 = consistenthash.hashMap c2 →
  consistenthash.ring c1 ≡ₚ consistenthash.ring c2 →
  let c1' := foldl consistenthash.add_peer c1 peersName in
  let c2' := foldl consistenthash.add_peer c2 peersName in
  consistenthash.hash c1' = consistenthash.hash c2'
  ∧ consistenthash.replicas c1' = consistenthash.replicas c2'
  ∧ consistenthash.hashMap c1' = consistenthash.hashMap c2'
  ∧ consistenthash.ring c1' ≡ₚ consistenthash.ring c2'.
Proof.
  revert c1 c2. induction peersName as [|q l IH]; intros c1 c2 Hh Hr Hm Hp; simpl.
  - done.
  - assert (∀ (ns : list Z) d1 d2,
      consistenthash.hash d1 = consistenthash.hash d2 →
      consistenthash.replicas d1 = consistenthash.replicas d2 →
      consistenthash.hashMap d1 = consistenthash.hashMap d2 →
      consistenthash.ring d1 ≡ₚ consistenthash.ring d2 →
      consistenthash.hash (foldl (consistenthash.add_virtual q) d1 ns)
      = consistenthash.hash (foldl (consistenthash.add_virtual q) d2 ns)
      ∧ consistenthash.replicas (foldl (consistenthash.add_virtual q) d1 ns)
        = consistenthash.replicas (foldl (consistenthash.add_virtual q) d2 ns)
      ∧ consistenthash.hashMap (foldl (consistenthash.add_virtual q) d1 ns)
        = consistenthash.hashMap (foldl (consistenthash.add_virtual q) d2 ns)
      ∧ consistenthash.ring (foldl (consistenthash.add_virtual q) d1 ns)
        ≡ₚ consistenthash.ring (foldl (consistenthash.add_virtual q) d2 ns)) as Hin.
    { induction ns as [|i ns IHis]; intros d1 d2 Hh' Hr' Hm' Hp'; simpl; [done|].
      destruct (add_virtual_ring_Permutation q d1 d2 i Hh' Hr' Hm' Hp')
        as (? & ? & ? & ?).
      by apply IHis. }
    destruct (Hin (seqZ 0 (consistenthash.replicas c1)) c1 c2 Hh Hr Hm Hp)
      as (? & ? & ? & ?).
    apply IH; unfold consistenthash.add_peer; rewrite <- ?Hr; done.
Qed.

(** X15: registering names in one call or in two successive calls gives
    the same ring: [Register] of [peers1 ++ peers2] equals [Register] of
    [peers2] after [Register] of [peers1], on any ring. *)
Theorem X15_Register_in_one_call_or_two (peers1 peers2 : list string)
    (c : consistenthash.Consistentency) :
  consistenthash.Register (peers1 ++ peers2) c
  = consistenthash.Register peers2 (consistenthash.Register peers1 c).
Proof.
  unfold consistenthash.Register at 1 2. rewrite foldl_app.
  set (c1 := foldl consistenthash.add_peer c peers1).
  destruct (foldl_add_peer_ring_Permutation peers2 c1 (consistenthash.Register peers1 c))
    as (Hh & Hr & Hm & Hp); try done.
  { unfold consistenthash.Register. simpl. fold c1. unfold sort.Ints.
    by rewrite merge_sort_Permutation. }
  rewrite Hh, Hr, Hm. f_equal. by apply Ints_Permutation.
Qed.

(** X16: growing the ring moves a key only to a newcomer.  After
    [Register peersName] a key is either answered as before or answered with
    one of [peersName]; no key moves from one old member to another. *)
Theorem X16_Register_moves_keys_only_to_new_members (members peersName : list string)
    (c : consistenthash.Consistentency) (key : string) :
  registered members c →
  consistenthash.Get key (consistenthash.Register peersName c) = consistenthash.Get key c
  ∨ ∃ q, q ∈ peersName
         ∧ consistenthash.Get key (consistenthash.Register peersName c) = Ret q.
Proof.
  intros Hreg.
  pose proof (registered_Register members peersName c Hreg) as Hreg'.
  destruct (Register_grown peersName c) as (news & _ & Hring & Hh & _ & Hnew & Hold).
  set (c' := consistenthash.Register peersName c) in *.
  assert (∀ y, y ∈ consistenthash.ring c' ↔ y ∈ consistenthash.ring c ∨ y ∈ news) as Hmem.
  { intros y. rewrite Hring. unfold sort.Ints.
    by rewrite merge_sort_Permutation, elem_of_app. }
  assert (consistenthash.hashOf c' key = consistenthash.hashOf c key) as Hkey.
  { unfold consistenthash.hashOf. by rewrite Hh. }
  destruct (decide (consistenthash.ring c' = [])) as [Hnil|Hne'].
  { left. assert (consistenthash.ring c = []) as Hnil0.
    { destruct (consistenthash.ring c) as [|y l] eqn:E; [done|].
      assert (y ∈ consistenthash.ring c') as Hy by (apply Hmem; left; left).
      rewrite Hnil in Hy. by apply elem_of_nil in Hy. }
    unfold consistenthash.Get. by rewrite Hnil, Hnil0. }
  destruct (Get_successor key c' (registered_sorted _ _ Hreg') Hne')
    as (x' & Hx' & -> & Hsucc').
  rewrite Hkey in Hsucc'.
  destruct (decide (x' ∈ news)) as [Hin|Hnot].
  { right. destruct (Hnew x' Hin) as (_ & q & Hq & Hown).
    exists q. split; [done|]. unfold consistenthash.owner. by rewrite Hown. }
  left. apply Hmem in Hx' as [Hx'|Hx']; [|done].
  assert (consistenthash.ring c ≠ []) as Hne.
  { intros Hnil. rewrite Hnil in Hx'. by apply elem_of_nil in Hx'. }
  destruct (Get_successor key c (registered_sorted _ _ Hreg) Hne)
    as (x & Hx & -> & Hsucc).
  assert (x' = x) as ->.
  { assert (x ∈ consistenthash.ring c') as Hxc' by (apply Hmem; by left).
    destruct Hsucc' as [[Hge' Hmin']|[Hall' Hmin']], Hsucc as [[Hge Hmin]|[Hall Hmin]].
    - pose proof (Hmin' x Hxc' Hge). pose proof (Hmin x' Hx' Hge'). lia.
    - pose proof (Hall x' Hx'). lia.
    - pose proof (Hall' x Hxc'). lia.
    - pose proof (Hmin' x Hxc'). pose proof (Hmin x' Hx'). lia. }
  unfold consistenthash.owner. by rewrite (Hold x Hnot).
Qed.

(** Member ["c"] joins the ring of ["a"] and ["b"]. *)
Lemma X16_Register_moves_keys_only_to_new_members_witness :
  let c := consistenthash.Register ["a"; "b"]%string (consistenthash.New 3 None) in
  registered ["a"; "b"]%string c
  ∧ (consistenthash.Get "Tom" (consistenthash.Register ["c"]%string c)
     = consistenthash.Get "Tom" c
     ∨ ∃ q, q ∈ ["c"]%string
            ∧ consistenthash.Get "Tom" (consistenthash.Register ["c"]%string c) = Ret q).
Proof.
  intros c.
  assert (registered ["a"; "b"]%string c) as Hreg.
  { apply (registered_Register [] ["a"; "b"]%string (consistenthash.New 3 None)).
    apply registered_New. }
  split; [exact Hreg|].
  exact (X16_Register_moves_keys_only_to_new_members ["a"; "b"]%string ["c"]%string c
           "Tom" Hreg).
Defined.

(** ** More on the request coalescer, the directory and the rpc method *)

(** X17: a function handed to [Fly] must not call [Fly] for the same key.
    The outer call has put its record in the table and released the lock, so
    the inner call finds the record and waits for a counter that only the
    outer call would decrement: the call never returns, and [fn] is not
    run. *)
Theorem X17_Fly_reentered_for_its_own_key_waits (T W : Type) (key : string)
    (fn : singleflight.Flight T * W
          → result ((option T * option error) * (singleflight.Flight T * W)))
    (f : singleflight.Flight T) (w : W) :
  singleflight.table f !! key = None →
  singleflight.Fly key (singleflight.Fly key fn) (f, w) = Blocked.
Proof.
  intros Hkey. unfold singleflight.Fly at 1. simpl.
  rewrite table_Some, Hkey. unfold singleflight.store, singleflight.Fly. simpl.
  by rewrite !table_Some, lookup_insert_eq.
Qed.

(** A new coalescer and a function that would succeed. *)
Lemma X17_Fly_reentered_for_its_own_key_waits_witness :
  singleflight.table {| singleflight.flight := None |} !! "Tom"%string
  = (None : option (singleflight.packet ByteView))
  ∧ singleflight.Fly "Tom"
      (singleflight.Fly "Tom" (λ s, Ret ((Some (view "560"), None), s)))
      ({| singleflight.flight := None |}, ())
    = Blocked.
Proof.
  split; [reflexivity|].
  apply (X17_Fly_reentered_for_its_own_key_waits ByteView unit "Tom"
           (λ s, Ret ((Some (view "560"), None), s))
           {| singleflight.flight := None |} ()).
  reflexivity.
Defined.

(** ** Peers of a server *)







(** X20: [NewGroup] touches nothing but the entry of its name: every other
    name still leads to the group it led to, and every group that existed,
    the one that held the name included, stays as it was at its address.
    With a nil retriever the directory is unchanged. *)
Theorem X20_NewGroup_leaves_other_groups_alone (name : string) (maxBytes : Z)
    (r : option Retriever) (d : directory) :
  let d' := (NewGroup name maxBytes r d).2 in
  (∀ other, other ≠ name → GetGroup other d' = GetGroup other d)
  ∧ (∀ p g, heap d !! p = Some g → heap d' !! p = Some g)
  ∧ (r = None → d' = d).
Proof.
  destruct r as [r|]; simpl; [|done].
  split; [|split; [|done]].
  - intros other Hne. unfold GetGroup. simpl. by rewrite lookup_insert_ne.
  - intros p g Hp. rewrite lookup_insert_ne; [done|].
    intros <-. pose proof (is_fresh (dom (heap d))) as Hfresh.
    apply not_elem_of_dom in Hfresh. congruence.
Qed.

(** X21: a group to which a [*server] was attached with [RegisterSvr] can
    be destroyed: [DestoryGroup] returns, the name is gone, the other names
    lead where they led, the group itself is still at its address with the
    server attached, and destroying the name once more does nothing. *)
Theorem X21_DestoryGroup_after_RegisterSvr (name : string) (d : directory) (p : nat)
    (g g' : Group) (srv : server) :
  GetGroup name d = Some p →
  heap d !! p = Some g →
  RegisterSvr (PickerServer srv) g = Ret g' →
  let d1 := {| groups := groups d; heap := <[p := g']> (heap d) |} in
  ∃ d2, DestoryGroup name d1 = (Ret (), d2)
        ∧ GetGroup name d2 = None
        ∧ (∀ other, other ≠ name → GetGroup other d2 = GetGroup other d)
        ∧ heap d2 !! p = Some g'
        ∧ DestoryGroup name d2 = (Ret (), d2).
Proof.
  intros Hp Hg Hreg d1. unfold RegisterSvr in Hreg.
  destruct (server_ g) eqn:Hsrv; [done|]. injection Hreg as <-.
  unfold DestoryGroup, GetGroup in *. subst d1. simpl.
  rewrite Hp, lookup_insert_eq. simpl.
  eexists. split; [reflexivity|]. simpl.
  rewrite lookup_delete_eq. split; [done|]. split; [|split; [|done]].
  - intros other Hne. by rewrite lookup_delete_ne.
  - by rewrite lookup_insert_eq.
Qed.

(** Group "scores", alone in the directory, with a new server attached. *)
Lemma X21_DestoryGroup_after_RegisterSvr_witness :
  let d := (NewGroup "scores" 1024 (Some (origin "560")) {| groups := ∅; heap := ∅ |}).2 in
  let g := group_of "scores" 1024 (origin "560") None in
  let srv := {| addr := defaultAddr; status := false; consHash := None; clients := ∅ |} in
  let g' := set_server (Some (PickerServer srv)) g in
  let d1 := {| groups := groups d; heap := <[0%nat := g']> (heap d) |} in
  GetGroup "scores" d = Some 0%nat
  ∧ heap d !! 0%nat = Some g
  ∧ RegisterSvr (PickerServer srv) g = Ret g'
  ∧ ∃ d2, DestoryGroup "scores" d1 = (Ret (), d2)
          ∧ GetGroup "scores" d2 = None
          ∧ (∀ other, other ≠ "scores"%string → GetGroup other d2 = GetGroup other d)
          ∧ heap d2 !! 0%nat = Some g'
          ∧ DestoryGroup "scores" d2 = (Ret (), d2).
Proof.
  intros d g srv g' d1.
  assert (GetGroup "scores" d = Some 0%nat) as Hp by (vm_compute; reflexivity).
  assert (heap d !! 0%nat = Some g) as Hg by (vm_compute; reflexivity).
  assert (RegisterSvr (PickerServer srv) g = Ret g') as Hreg by reflexivity.
  split; [exact Hp|]. split; [exact Hg|]. split; [exact Hreg|].
  exact (X21_DestoryGroup_after_RegisterSvr "scores" d 0%nat g g' srv Hp Hg Hreg).
Defined.



(** X23: whenever [server.Get] returns, the names of the directory are as
    before; a response that comes with an error carries no value; and an
    empty key or an unknown group yields an error without any effect on
    directory or trace. *)
Theorem X23_rpc_Get_error_means_empty_response (fuel : nat) (s : server)
    (group key : string) (d d' : directory) (tr tr' : trace) (resp : GetResponse)
    (err : option error) :
  server_Get fuel s group key d tr = Ret ((resp, err), (d', tr')) →
  groups d' = groups d
  ∧ (is_Some err → Value resp = [])
  ∧ (key = ""%string ∨ GetGroup group d = None → is_Some err ∧ d' = d ∧ tr' = tr).
Proof.
  unfold server_Get. destruct (String.eqb_spec key "") as [->|Hne].
  { intros ?; simplify_eq. simpl. split; [done|]. split; [done|]. eauto. }
  destruct (GetGroup group d) as [p|] eqn:Hp.
  2: { intros ?; simplify_eq. simpl. split; [done|]. split; [done|]. eauto. }
  destruct (heap d !! p) as [g|]; [|done].
  destruct (Get fuel key (g, tr)) as [[[v e] [g1 tr1]]| | |]; simpl; [|done..].
  destruct e as [e|]; intros ?; simplify_eq; simpl.
  - split; [done|]. split; [done|]. by intros [?|?].
  - split; [done|]. split; [by intros [? ?]|]. by intros [?|?].
Qed.

(** ["Tom"] in a new group "scores" whose loader fails. *)
Lemma X23_rpc_Get_error_means_empty_response_witness :
  let srv := {| addr := defaultAddr; status := false; consHash := None; clients := ∅ |} in
  let d := (NewGroup "scores" 1024 (Some (broken_origin "no such student"))
              {| groups := ∅; heap := ∅ |}).2 in
  ∃ resp d', server_Get 0 srv "scores" "Tom" d []
             = Ret ((resp, Some (Errorf "no such student")), (d', [Retrieved "Tom"]))
             ∧ groups d' = groups d
             ∧ Value resp = [].
Proof.
  intros srv d.
  assert (∃ resp d', server_Get 0 srv "scores" "Tom" d []
                     = Ret ((resp, Some (Errorf "no such student")),
                            (d', [Retrieved "Tom"]))) as (resp & d' & Hget)
    by (do 2 eexists; vm_compute; reflexivity).
  exists resp, d'. split; [exact Hget|].
  destruct (X23_rpc_Get_error_means_empty_response 0 srv "scores" "Tom" d d' []
              [Retrieved "Tom"] resp (Some (Errorf "no such student")) Hget)
    as (Hgroups & Hempty & _).
  split; [exact Hgroups|]. apply Hempty. eauto.
Defined.



(** ** Byte views and the life cycle of a server *)

(** X25: [ByteSlice] returns the bytes of the view, all [Len] of them;
    [String] of a view over the bytes of a string is that string. *)
Theorem X25_ByteView_copies_and_renders_its_bytes (v : ByteView) (s : string) :
  ByteSlice v = b v
  ∧ lru.Len v = Z.of_nat (List.length (ByteSlice v))
  ∧ ByteView_String (view s) = s
  ∧ ByteSlice (view s) = list_byte_of_string s.
Proof.
  unfold ByteSlice. rewrite !cloneBytes_id. repeat split.
  unfold ByteView_String, view. simpl. apply string_of_list_byte_of_string.
Qed.

(** X26: [Start] locks the mutex of the server and, on the path that
    starts it, returns without unlocking.  A server that was not running is
    marked running, with address, ring and clients as they were; from then
    on every [Start], [Pick] and [SetPeers] on it waits for the mutex, also
    after [Stop], whose body is empty. *)
Theorem X26_Start_leaves_the_mutex_locked (g : guarded) :
  mu g = false →
  status (srv g) = false →
  ∃ g', Start g = Ret (None, g')
        ∧ status (srv g') = true
        ∧ addr (srv g') = addr (srv g)
        ∧ consHash (srv g') = consHash (srv g)
        ∧ clients (srv g') = clients (srv g)
        ∧ Start g' = Blocked
        ∧ (∀ key, guarded_Pick key g' = Blocked)
        ∧ (∀ ValidPeerAddr peersAddr,
             guarded_SetPeers ValidPeerAddr peersAddr g' = Blocked)
        ∧ Start {| srv := Stop (srv g'); mu := mu g' |} = Blocked.
Proof.
  intros Hmu Hstatus. unfold Start. rewrite Hmu, Hstatus.
  eexists. split; [reflexivity|]. simpl. repeat split.
Qed.

(** A server as [NewServer] makes it for the default address. *)
Lemma X26_Start_leaves_the_mutex_locked_witness :
  let g := {| srv := {| addr := defaultAddr; status := false; consHash := None;
                        clients := ∅ |};
              mu := false |} in
  ∃ g', Start g = Ret (None, g')
        ∧ status (srv g') = true
        ∧ addr (srv g') = addr (srv g)
        ∧ consHash (srv g') = consHash (srv g)
        ∧ clients (srv g') = clients (srv g)
        ∧ Start g' = Blocked
        ∧ (∀ key, guarded_Pick key g' = Blocked)
        ∧ (∀ ValidPeerAddr peersAddr,
             guarded_SetPeers ValidPeerAddr peersAddr g' = Blocked)
        ∧ Start {| srv := Stop (srv g'); mu := mu g' |} = Blocked.
Proof.
  intros g. apply (X26_Start_leaves_the_mutex_locked g); reflexivity.
Defined.

(** ** A server that has no ring yet *)

(** X27: [NewServer] sets neither ring nor clients.  An empty address stands
    for the default one; an invalid address gives an error and no server.
    A server it returns is not running, and a group that uses it as router
    before [SetPeers] was called cannot load anything: [Get] of a key that
    is not cached panics in [Pick], on the nil ring, instead of asking the
    origin loader. *)
Theorem X27_Get_panics_until_SetPeers (ValidPeerAddr : string → bool) (a : string)
    (s : server) (fuel : nat) (key : string) (g : Group) (tr : trace) :
  NewServer ValidPeerAddr a = (Some s, None) →
  server_ g = Some (PickerServer s) →
  key ≠ ""%string →
  lru.hashmap (lru_ (cache_ g)) !! key = None →
  singleflight.table (flight g) !! key = None →
  addr s = (if String.eqb a "" then defaultAddr else a)
  ∧ ValidPeerAddr (addr s) = true
  ∧ status s = false
  ∧ Get fuel key (g, tr) = Panic "invalid memory address or nil pointer dereference".
Proof.
  intros Hnew Hsrv Hne Hmiss Hflight.
  assert (addr s = (if String.eqb a "" then defaultAddr else a)
          ∧ ValidPeerAddr (addr s) = true ∧ status s = false ∧ consHash s = None)
    as (Haddr & Hvalid & Hstatus & Hring).
  { unfold NewServer in Hnew.
    destruct (ValidPeerAddr (if String.eqb a "" then defaultAddr else a)) eqn:Hv;
      simpl in Hnew; [|done].
    injection Hnew as <-. done. }
  split; [done|]. split; [done|]. split; [done|].
  rewrite Get_miss by done. rewrite Hsrv.
  unfold peerBytes, Picker_Pick, Pick. by rewrite Hring.
Qed.

(** Group "scores" with a server for the default address as router. *)
Lemma X27_Get_panics_until_SetPeers_witness :
  let s := {| addr := defaultAddr; status := false; consHash := None; clients := ∅ |} in
  let g := group_of "scores" 1024 (origin "560") (Some (PickerServer s)) in
  NewServer (λ _, true) "" = (Some s, None)
  ∧ addr s = defaultAddr
  ∧ status s = false
  ∧ Get 0 "Tom" (g, []) = Panic "invalid memory address or nil pointer dereference".
Proof.
  intros s g.
  assert (NewServer (λ _, true) "" = (Some s, None)) as Hnew by reflexivity.
  split; [exact Hnew|].
  destruct (X27_Get_panics_until_SetPeers (λ _, true) "" s 0 "Tom" g [] Hnew)
    as (Haddr & _ & Hstatus & Hget);
    [reflexivity|discriminate|reflexivity|reflexivity|].
  split; [exact Haddr|]. split; [exact Hstatus|exact Hget].
Defined.
